(** * Chainmail deformation of a voxel grid: a shallow embedding of [deform.py]

    The module deforms a cube of voxels after one voxel was displaced.
    Coordinates, spacing and stiffness are modelled as integers ([Z]); the
    one floating point expression of the program, the side length of the
    cube, is a parameter.  A voxel position is a row of the grid, a
    three-column array; the four-element lists and array rows
    [[x, y, z, tag]] of the program are records with fields [v0] .. [v3],
    named after the subscripts the program uses.  Exceptions raised by numpy
    are results [Raise e].  The loops over a list that is only consumed are
    structural recursions; the propagation loop of [deform], whose queue
    grows while it is consumed, takes fuel, and running out of fuel is the
    answer [None]. *)

From stdpp Require Import base numbers list.

Open Scope Z_scope.

(** ** Exceptions and results *)

Inductive exn : Type :=
| IndexError   (* an index out of range, or too many indices for an array *)
| ValueError.  (* arrays whose numbers of dimensions do not agree *)

Inductive result (A : Type) : Type :=
| Ok (a : A)
| Raise (e : exn).

Arguments Ok {A} a.
Arguments Raise {A} e.

Definition bind {A B : Type} (r : result A) (k : A -> result B) : result B :=
  match r with
  | Ok a => k a
  | Raise e => Raise e
  end.

Notation "'let*' x ':=' e 'in' k" := (bind e (fun x => k))
  (at level 10, x name, e at level 100, k at level 200).

Definition is_raise {A : Type} (r : result A) : Prop :=
  match r with
  | Ok _ => False
  | Raise _ => True
  end.

(** ** Positions, rows and grids *)

Definition pos : Type := Z * Z * Z.

(** A four-element list or array row: subscripts 0, 1, 2 are the coordinates,
    subscript 3 holds a direction code or a grid index, depending on the
    stage. *)
Record vox : Type := Vox { v0 : Z; v1 : Z; v2 : Z; v3 : Z }.

#[global] Instance vox_eq_dec : EqDecision vox.
Proof. solve_decision. Defined.

(** [el[:3]] *)
Definition xyz (el : vox) : pos := (v0 el, v1 el, v2 el).

(** [el[0] = a], [el[1] = a], [el[2] = a], [el[3] = a] *)
Definition set0 (el : vox) (a : Z) : vox := Vox a (v1 el) (v2 el) (v3 el).
Definition set1 (el : vox) (a : Z) : vox := Vox (v0 el) a (v2 el) (v3 el).
Definition set2 (el : vox) (a : Z) : vox := Vox (v0 el) (v1 el) a (v3 el).
Definition set3 (el : vox) (a : Z) : vox := Vox (v0 el) (v1 el) (v2 el) a.

(** [np.append(p, i)]: a position with a fourth entry. *)
Definition with_tag (p : pos) (i : Z) : vox :=
  let '(a, b, c) := p in Vox a b c i.

Definition padd (p q : pos) : pos :=
  let '(a, b, c) := p in let '(d, e, f) := q in (a + d, b + e, c + f).

Definition psub (p q : pos) : pos :=
  let '(a, b, c) := p in let '(d, e, f) := q in (a - d, b - e, c - f).

(** A subscript of an array of [n] rows: negative subscripts count from the
    end, anything else out of range is an error. *)
Definition norm_index (n : nat) (i : Z) : option nat :=
  if bool_decide (0 <= i < Z.of_nat n) then Some (Z.to_nat i)
  else if bool_decide (- Z.of_nat n <= i < 0) then Some (Z.to_nat (Z.of_nat n + i))
  else None.

(** [matrix[i]] *)
Definition getitem (matrix : list pos) (i : Z) : result pos :=
  match norm_index (length matrix) i with
  | Some k => match matrix !! k with Some p => Ok p | None => Raise IndexError end
  | None => Raise IndexError
  end.

(** [matrix[i] = p] *)
Definition setitem (matrix : list pos) (i : Z) (p : pos) : result (list pos) :=
  match norm_index (length matrix) i with
  | Some k => Ok (<[k:=p]> matrix)
  | None => Raise IndexError
  end.

(** ** [find_index]

    [np.where(np.all(matrix == voxel, axis=1))[0][0]]: the first row equal to
    [voxel]; subscripting the empty array of matches raises. *)
Definition find_index (voxel : pos) (matrix : list pos) : result Z :=
  match list_find (fun p => p = voxel) matrix with
  | Some (i, _) => Ok (Z.of_nat i)
  | None => Raise IndexError
  end.

(** ** The six directional constraint functions

    [candidate] is a Python list, so [candidate[:]] is a copy and the
    assignments below do not reach [compare]; the result is [None] for the
    program's [0] ("no change").  Each function is split into its clamping
    statements ([adjust_right], ...) and the copy and [return] around them. *)

(** [0 if np.array_equal(compare, candidate) else candidate] *)
Definition unchanged_or (compare candidate : vox) : option vox :=
  if bool_decide (compare = candidate) then None else Some candidate.

Definition adjust_right (sponsor candidate : vox) (step stiffness_coef : Z) : vox :=
  let minimum := step - stiffness_coef in
  let maximum := step + stiffness_coef in
  let shear := stiffness_coef in
  let candidate :=
    if v0 candidate - v0 sponsor <? minimum then set0 candidate (v0 sponsor + minimum)
    else if v0 candidate - v0 sponsor >? maximum then set0 candidate (v1 sponsor + maximum)
    else candidate in
  let candidate :=
    if v1 candidate - v1 sponsor <? - shear then set1 candidate (v1 sponsor - shear)
    else if v1 candidate - v1 sponsor >? shear then set1 candidate (v1 sponsor + shear)
    else candidate in
  let candidate :=
    if v2 candidate - v2 sponsor <? - shear then set2 candidate (v2 sponsor - shear)
    else if v2 candidate - v2 sponsor >? shear then set2 candidate (v2 sponsor + shear)
    else candidate in
  candidate.

Definition deform_right (sponsor candidate : vox) (step stiffness_coef : Z) : option vox :=
  let compare := candidate in
  let candidate := adjust_right sponsor candidate step stiffness_coef in
  unchanged_or compare candidate.

Definition adjust_left (sponsor candidate : vox) (step stiffness_coef : Z) : vox :=
  let minimum := step - stiffness_coef in
  let maximum := step + stiffness_coef in
  let shear := stiffness_coef in
  let candidate :=
    if v0 candidate - v0 sponsor <? - maximum then set0 candidate (v0 sponsor - maximum)
    else if v0 candidate - v0 sponsor >? - minimum then set0 candidate (v1 sponsor - minimum)
    else candidate in
  let candidate :=
    if v1 candidate - v1 sponsor <? - shear then set1 candidate (v1 sponsor + shear)
    else if v1 candidate - v1 sponsor >? shear then set1 candidate (v1 sponsor + shear)
    else candidate in
  let candidate :=
    if v2 candidate - v2 sponsor <? - shear then set2 candidate (v2 sponsor - shear)
    else if v2 candidate - v2 sponsor >? shear then set2 candidate (v2 sponsor + shear)
    else candidate in
  candidate.

Definition deform_left (sponsor candidate : vox) (step stiffness_coef : Z) : option vox :=
  let compare := candidate in
  let candidate := adjust_left sponsor candidate step stiffness_coef in
  unchanged_or compare candidate.

Definition adjust_top (sponsor candidate : vox) (step shear : Z) : vox :=
  let minimum := step - shear in
  let maximum := step + shear in
  let candidate :=
    if v1 candidate - v1 sponsor <? minimum then set1 candidate (v1 sponsor + minimum)
    else if v1 candidate - v1 sponsor >? maximum then set1 candidate (v1 sponsor + maximum)
    else candidate in
  let candidate :=
    if v0 candidate - v0 sponsor <? - shear then set0 candidate (v0 sponsor + shear)
    else if v0 candidate - v0 sponsor >? shear then set0 candidate (v1 sponsor + shear)
    else candidate in
  let candidate :=
    if v2 candidate - v2 sponsor <? - shear then set2 candidate (v2 sponsor - shear)
    else if v2 candidate - v2 sponsor >? shear then set2 candidate (v2 sponsor + shear)
    else candidate in
  candidate.

Definition deform_top (sponsor candidate : vox) (step shear : Z) : option vox :=
  let original := candidate in
  let candidate := adjust_top sponsor candidate step shear in
  unchanged_or original candidate.

Definition adjust_lower (sponsor candidate : vox) (step shear : Z) : vox :=
  let minimum := step - shear in
  let maximum := step + shear in
  let candidate :=
    if v1 candidate - v1 sponsor >? - minimum then set1 candidate (v1 sponsor - minimum)
    else if v1 candidate - v1 sponsor <? - maximum then set1 candidate (v1 sponsor - maximum)
    else candidate in
  let candidate :=
    if v0 candidate - v0 sponsor <? - shear then set0 candidate (v0 sponsor + shear)
    else if v0 candidate - v0 sponsor >? shear then set0 candidate (v1 sponsor + shear)
    else candidate in
  let candidate :=
    if v2 candidate - v2 sponsor <? - shear then set2 candidate (v2 sponsor - shear)
    else if v2 candidate - v2 sponsor >? shear then set2 candidate (v2 sponsor + shear)
    else candidate in
  candidate.

Definition deform_lower (sponsor candidate : vox) (step shear : Z) : option vox :=
  let original := candidate in
  let candidate := adjust_lower sponsor candidate step shear in
  unchanged_or original candidate.

Definition adjust_down (sponsor candidate : vox) (step shear : Z) : vox :=
  let minimum := step - shear in
  let maximum := step + shear in
  let candidate :=
    if v2 candidate - v2 sponsor >? - minimum then set2 candidate (v2 sponsor - minimum)
    else if v2 candidate - v2 sponsor <? - maximum then set2 candidate (v2 sponsor - maximum)
    else candidate in
  let candidate :=
    if v0 candidate - v0 sponsor <? - shear then set0 candidate (v0 sponsor + shear)
    else if v0 candidate - v0 sponsor >? shear then set0 candidate (v0 sponsor + shear)
    else candidate in
  let candidate :=
    if v1 candidate - v1 sponsor <? - shear then set1 candidate (v1 sponsor - shear)
    else if v1 candidate - v1 sponsor >? shear then set1 candidate (v1 sponsor + shear)
    else candidate in
  candidate.

Definition deform_down (sponsor candidate : vox) (step shear : Z) : option vox :=
  let original := candidate in
  let candidate := adjust_down sponsor candidate step shear in
  unchanged_or original candidate.

Definition adjust_up (sponsor candidate : vox) (step shear : Z) : vox :=
  let minimum := step - shear in
  let maximum := step + shear in
  let candidate :=
    if v2 candidate - v2 sponsor >? minimum then set2 candidate (v2 sponsor + minimum)
    else if v2 candidate - v2 sponsor >? maximum then set2 candidate (v2 sponsor + maximum)
    else candidate in
  let candidate :=
    if v0 candidate - v0 sponsor <? - shear then set0 candidate (v0 sponsor + shear)
    else if v0 candidate - v0 sponsor >? shear then set0 candidate (v0 sponsor + shear)
    else candidate in
  let candidate :=
    if v1 candidate - v1 sponsor <? - shear then set1 candidate (v1 sponsor - shear)
    else if v1 candidate - v1 sponsor >? shear then set1 candidate (v1 sponsor + shear)
    else candidate in
  candidate.

Definition deform_up (sponsor candidate : vox) (step shear : Z) : option vox :=
  let original := candidate in
  let candidate := adjust_up sponsor candidate step shear in
  unchanged_or original candidate.

(** Dispatch on the direction code.  A code outside 0..5 falls off the end of
    the [if] chain: the program returns Python's [None], which the caller
    tests for truth exactly like [0]. *)
Definition deform_neighbour (sponsor neighbor : vox) (step shear : Z) : option vox :=
  if v3 neighbor =? 0 then deform_right sponsor neighbor step shear
  else if v3 neighbor =? 1 then deform_left sponsor neighbor step shear
  else if v3 neighbor =? 2 then deform_top sponsor neighbor step shear
  else if v3 neighbor =? 3 then deform_lower sponsor neighbor step shear
  else if v3 neighbor =? 4 then deform_down sponsor neighbor step shear
  else if v3 neighbor =? 5 then deform_up sponsor neighbor step shear
  else None.

(** ** The sponsor array while the region is built

    [np.append(displacement_dst, sponsor_index)] is a one-dimensional array
    of four entries ([Row]); after a layer was appended the array has two
    dimensions and four columns ([Rows]). *)
Inductive sponsors : Type :=
| Row (r : vox)
| Rows (rows : list vox).

(** [np.append(np.asarray(storage_layer), [original_sponsors], axis=0)].
    numpy concatenates only arrays with the same number of dimensions:
    - an empty [storage_layer] becomes an array of shape (0,), one dimension,
      while [[original_sponsors]] has two or three;
    - rows against [[Row r]] are two arrays of two dimensions and four
      columns, and the row of [r] is put last;
    - rows against [[Rows _]] are two dimensions against three. *)
Definition append_layer (storage_layer : list vox) (original_sponsors : sponsors)
  : result sponsors :=
  match storage_layer, original_sponsors with
  | [], _ => Raise ValueError
  | _ :: _, Row r => Ok (Rows (storage_layer ++ [r]))
  | _ :: _, Rows _ => Raise ValueError
  end.

(** [original_sponsors[:, :3] += displacement_vector]: two subscripts on an
    array of one dimension raise; on a table every row is moved. *)
Definition translate (original_sponsors : sponsors) (displacement_vector : pos)
  : result (list vox) :=
  match original_sponsors with
  | Row _ => Raise IndexError
  | Rows rows =>
      Ok (map (fun r => with_tag (padd (xyz r) displacement_vector) (v3 r)) rows)
  end.

(** The state of the propagation loop of [deform].  [committed] is a ghost
    field, absent from the program: it records the indices at which the loop
    wrote an adjusted position, in order. *)
Record state : Type := State {
  original_sponsors : list vox;
  sponsor_history : list Z;
  new_matrix : list pos;
  committed : list Z
}.

Section Deform.

(** [np.ceil(np.power(n, 1 / 3) * step)], a floating point expression of
    the number [n] of rows of the grid and of [step]; the general theorems
    below hold whatever it returns. *)
Variable side_length_of : nat -> Z -> Z.

(** ** [find_neighbors] *)

(** [if not find_index(n[:3], cube_matrix) in sponsor_hist:
       neighbors.append(n)] *)
Definition keep_unvisited (n : vox) (cube_matrix : list pos) (sponsor_hist : list Z)
    (neighbors : list vox) : result (list vox) :=
  let* i := find_index (xyz n) cube_matrix in
  Ok (if bool_decide (i ∈ sponsor_hist) then neighbors else neighbors ++ [n]).

Definition find_neighbors (sponsor : pos) (cube_matrix : list pos)
    (sponsor_hist : list Z) (step : Z) (surface_only : bool) : result (list vox) :=
  let '(s0, s1, s2) := sponsor in
  let side_length := side_length_of (length cube_matrix) step in
  let neighbors := [] in
  let* neighbors :=
    if s0 + step <? side_length
    then keep_unvisited (Vox (s0 + step) s1 s2 0) cube_matrix sponsor_hist neighbors
    else Ok neighbors in
  let* neighbors :=
    if 0 <=? s0 - step
    then keep_unvisited (Vox (s0 - step) s1 s2 1) cube_matrix sponsor_hist neighbors
    else Ok neighbors in
  let* neighbors :=
    if s1 + step <? side_length
    then keep_unvisited (Vox s0 (s1 + step) s2 2) cube_matrix sponsor_hist neighbors
    else Ok neighbors in
  let* neighbors :=
    if 0 <=? s1 - step
    then keep_unvisited (Vox s0 (s1 - step) s2 3) cube_matrix sponsor_hist neighbors
    else Ok neighbors in
  if surface_only then Ok neighbors
  else
    let* neighbors :=
      if 0 <=? s2 - step
      then keep_unvisited (Vox s0 s1 (s2 - step) 4) cube_matrix sponsor_hist neighbors
      else Ok neighbors in
    let* neighbors :=
      if s2 + step <? side_length
      then keep_unvisited (Vox s0 s1 (s2 + step) 5) cube_matrix sponsor_hist neighbors
      else Ok neighbors in
    Ok neighbors.

(** ** [find_original_sponsors] *)

(** [for el in storage_layer: el[3] = find_index(el[:3], original_cube);
      sponsor_history.append(el[3])] *)
Fixpoint retag (storage_layer : list vox) (original_cube : list pos)
    (sponsor_history : list Z) : result (list vox * list Z) :=
  match storage_layer with
  | [] => Ok ([], sponsor_history)
  | el :: rest =>
      let* i := find_index (xyz el) original_cube in
      let* r := retag rest original_cube (sponsor_history ++ [i]) in
      Ok (set3 el i :: fst r, snd r)
  end.

(** [while len(outside_layer) > 0: ...]: one sponsor of the outer layer is
    popped per round; the result is the storage layer and the history. *)
Fixpoint drain (outside_layer storage_layer : list vox) (original_cube : list pos)
    (sponsor_history : list Z) (step : Z) : result (list vox * list Z) :=
  match outside_layer with
  | [] => Ok (storage_layer, sponsor_history)
  | el :: outside_layer =>
      let index := v3 el in
      let* sponsor := getitem original_cube index in
      let* neighbors := find_neighbors sponsor original_cube sponsor_history step true in
      let storage_layer := storage_layer ++ neighbors in
      let* r := retag storage_layer original_cube sponsor_history in
      drain outside_layer (fst r) original_cube (snd r) step
  end.

(** [for i in range(displacement_area): ...]; [outside_layer] is empty when
    the [while] loop ends, so extending it by [storage_layer] gives
    [storage_layer]. *)
Fixpoint layers (n : nat) (original_sponsors : sponsors) (outside_layer : list vox)
    (original_cube : list pos) (sponsor_history : list Z) (step : Z) : result sponsors :=
  match n with
  | O => Ok original_sponsors
  | S n =>
      let* r := drain outside_layer [] original_cube sponsor_history step in
      let storage_layer := fst r in
      let* original_sponsors := append_layer storage_layer original_sponsors in
      layers n original_sponsors storage_layer original_cube (snd r) step
  end.

Definition find_original_sponsors (displacement_dst displacement_src : pos)
    (original_cube : list pos) (step : Z) (displacement_area : Z) : result (list vox) :=
  let displacement_vector := psub displacement_dst displacement_src in
  let* sponsor_index := find_index displacement_src original_cube in
  let original_sponsors := with_tag displacement_dst sponsor_index in
  let outside_layer := [original_sponsors] in
  let sponsor_history := [sponsor_index] in
  let* original_sponsors :=
    layers (Z.to_nat displacement_area) (Row original_sponsors) outside_layer
      original_cube sponsor_history step in
  translate original_sponsors displacement_vector.

(** ** [deform] *)

(** [for el in original_sponsors: new_matrix[el[3]] = el[:3]] *)
Fixpoint write_sponsors (original_sponsors : list vox) (new_matrix : list pos)
    : result (list pos) :=
  match original_sponsors with
  | [] => Ok new_matrix
  | el :: rest =>
      let* new_matrix := setitem new_matrix (v3 el) (xyz el) in
      write_sponsors rest new_matrix
  end.

(** The body of the inner [while] loop, for one neighbor. *)
Definition examine (original_cube : list pos) (voxel_spacing stiffness_coef : Z)
    (use_sponsor : vox) (st : state) (use_neighbor : vox) : result state :=
  let* neighbor_position := find_index (xyz use_neighbor) original_cube in
  let sponsor_history := sponsor_history st ++ [neighbor_position] in
  match deform_neighbour use_sponsor use_neighbor voxel_spacing stiffness_coef with
  | None =>
      Ok (State (original_sponsors st) sponsor_history (new_matrix st) (committed st))
  | Some use_neighbor =>
      let use_neighbor := set3 use_neighbor neighbor_position in
      let original_sponsors := original_sponsors st ++ [use_neighbor] in
      let* new_matrix := setitem (new_matrix st) neighbor_position (xyz use_neighbor) in
      Ok (State original_sponsors sponsor_history new_matrix
            (committed st ++ [neighbor_position]))
  end.

(** [while len(neighbors) > 0: use_neighbor = neighbors.pop(0); ...] *)
Fixpoint examine_all (original_cube : list pos) (voxel_spacing stiffness_coef : Z)
    (use_sponsor : vox) (neighbors : list vox) (st : state) : result state :=
  match neighbors with
  | [] => Ok st
  | use_neighbor :: neighbors =>
      let* st := examine original_cube voxel_spacing stiffness_coef use_sponsor st
                   use_neighbor in
      examine_all original_cube voxel_spacing stiffness_coef use_sponsor neighbors st
  end.

(** One round of the outer loop, after [use_sponsor] was taken off the
    queue of [st]. *)
Definition round (original_cube : list pos) (voxel_spacing stiffness_coef : Z)
    (use_sponsor : vox) (st : state) : result state :=
  let sponsor_index := v3 use_sponsor in
  let* sponsor := getitem original_cube sponsor_index in
  let* neighbors :=
    find_neighbors sponsor original_cube (sponsor_history st) voxel_spacing false in
  examine_all original_cube voxel_spacing stiffness_coef use_sponsor neighbors st.

(** [while len(original_sponsors) > 0: ...].  [None]: the fuel ran out. *)
Fixpoint propagate (fuel : nat) (original_cube : list pos)
    (voxel_spacing stiffness_coef : Z) (st : state) : option (result state) :=
  match original_sponsors st with
  | [] => Some (Ok st)
  | use_sponsor :: rest =>
      match fuel with
      | O => None
      | S fuel =>
          match round original_cube voxel_spacing stiffness_coef use_sponsor
                  (State rest (sponsor_history st) (new_matrix st) (committed st)) with
          | Ok st => propagate fuel original_cube voxel_spacing stiffness_coef st
          | Raise e => Some (Raise e)
          end
      end
  end.

(** The state in which the propagation loop starts. *)
Definition deform_init (disp_src : pos) (disp_area : Z) (disp_vector : pos)
    (original_cube : list pos) (voxel_spacing : Z) : result state :=
  let disp_dst := padd disp_src disp_vector in
  let* original_sponsors :=
    find_original_sponsors disp_dst disp_src original_cube voxel_spacing disp_area in
  let sponsor_history := map v3 original_sponsors in
  let new_matrix := original_cube in
  let* new_matrix := write_sponsors original_sponsors new_matrix in
  Ok (State original_sponsors sponsor_history new_matrix []).

(** [deform] with the final state of its loop.  The fuel is the length of
    the queue plus the number of rows of the grid, which is enough
    (lemma [propagate_enough_fuel]). *)
Definition deform_run (disp_src : pos) (disp_area : Z) (disp_vector : pos)
    (original_cube : list pos) (voxel_spacing stiffness_coef : Z)
    : option (result state) :=
  match deform_init disp_src disp_area disp_vector original_cube voxel_spacing with
  | Raise e => Some (Raise e)
  | Ok st =>
      propagate (length (original_sponsors st) + length original_cube)
        original_cube voxel_spacing stiffness_coef st
  end.

Definition deform (disp_src : pos) (disp_area : Z) (disp_vector : pos)
    (original_cube : list pos) (voxel_spacing stiffness_coef : Z)
    : option (result (list pos)) :=
  match deform_run disp_src disp_area disp_vector original_cube voxel_spacing
          stiffness_coef with
  | Some (Ok st) => Some (Ok (new_matrix st))
  | Some (Raise e) => Some (Raise e)
  | None => None
  end.

End Deform.

(** ** A side length in exact arithmetic, and test grids *)

(** The largest [k] with [k ^ 3 <= v]. *)
Definition cbrt_floor (v : Z) : Z :=
  Z.of_nat (length (filter (fun k : nat => Z.of_nat k ^ 3 <= v) (seq 1 (Z.to_nat v)))).

(** [ceil (n ^ (1/3) * step)] for an integer [step], in exact arithmetic. *)
Definition exact_side (n : nat) (step : Z) : Z :=
  if 0 <=? step then
    let v := Z.of_nat n * step ^ 3 in
    let k := cbrt_floor v in
    if k ^ 3 =? v then k else k + 1
  else - cbrt_floor (Z.of_nat n * (- step) ^ 3).

(** The lattice [lo, lo + side) ^ 3 with unit spacing, x fastest. *)
Definition lattice (lo : Z) (side : nat) : list pos :=
  c ← seq 0 side; b ← seq 0 side; a ← seq 0 side;
  [(lo + Z.of_nat a, lo + Z.of_nat b, lo + Z.of_nat c)].


(** ** Notions used by the statements *)

(** The six positions [find_neighbors] considers around [sponsor], with their
    direction codes, in the order of the program. *)
Definition candidates (sponsor : pos) (step : Z) : list vox :=
  let '(s0, s1, s2) := sponsor in
  [Vox (s0 + step) s1 s2 0; Vox (s0 - step) s1 s2 1;
   Vox s0 (s1 + step) s2 2; Vox s0 (s1 - step) s2 3;
   Vox s0 s1 (s2 - step) 4; Vox s0 s1 (s2 + step) 5].

(** [n] is in the grid and its index is not in the history. *)
Definition fresh (cube : list pos) (hist : list Z) (n : vox) : Prop :=
  exists i, find_index (xyz n) cube = Ok i /\ i ∉ hist.

(** The number of grid indices that are not in the history. *)
Definition unvisited (n : nat) (hist : list Z) : nat :=
  length (filter (fun k : nat => Z.of_nat k ∉ hist) (seq 0 n)).

(** Every position that passes a bound test of [find_neighbors] around a
    voxel of the grid is a voxel of the grid. *)
Definition closedb (side_length_of : nat -> Z -> Z) (cube : list pos) (step : Z) : bool :=
  let side_length := side_length_of (length cube) step in
  forallb (fun p : pos =>
    let '(s0, s1, s2) := p in
    (negb (s0 + step <? side_length) || bool_decide ((s0 + step, s1, s2) ∈ cube)) &&
    (negb (0 <=? s0 - step) || bool_decide ((s0 - step, s1, s2) ∈ cube)) &&
    (negb (s1 + step <? side_length) || bool_decide ((s0, s1 + step, s2) ∈ cube)) &&
    (negb (0 <=? s1 - step) || bool_decide ((s0, s1 - step, s2) ∈ cube)) &&
    (negb (0 <=? s2 - step) || bool_decide ((s0, s1, s2 - step) ∈ cube)) &&
    (negb (s2 + step <? side_length) || bool_decide ((s0, s1, s2 + step) ∈ cube)))
    cube.

(** The subscript-3 entries of the queue are indices of the grid. *)
Definition tags_in_range (cube : list pos) (queue : list vox) : Prop :=
  Forall (fun el => 0 <= v3 el < Z.of_nat (length cube)) queue.

(** How a stretch of the propagation loop changed the state: [ex] are the
    indices appended to the history, [cm] those appended to [committed]; the
    output grid keeps its length and changes at indices of [cm] only. *)
Definition frame (st st' : state) (ex cm : list Z) : Prop :=
  sponsor_history st' = sponsor_history st ++ ex /\
  committed st' = committed st ++ cm /\
  cm `sublist_of` ex /\
  length (new_matrix st') = length (new_matrix st) /\
  forall k : nat, new_matrix st' !! k <> new_matrix st !! k -> Z.of_nat k ∈ cm.

(** The contract section 4.4 of the specification words for the six
    functions, for comparison with the program: the offset along the primary
    axis, signed by the direction, is clamped into
    [[step - stiffness, step + stiffness]], the offsets along the two other
    axes into [[- stiffness, stiffness]], all relative to the sponsor's
    coordinate on the same axis. *)
Definition clamp (lo hi x : Z) : Z :=
  if x <? lo then lo else if x >? hi then hi else x.

Definition clamped_as_specified (code : Z) (sponsor candidate : vox)
    (step stiffness : Z) : vox :=
  let primary (sign s c : Z) :=
    s + sign * clamp (step - stiffness) (step + stiffness) (sign * (c - s)) in
  let shear (s c : Z) := s + clamp (- stiffness) stiffness (c - s) in
  let px sign := primary sign (v0 sponsor) (v0 candidate) in
  let py sign := primary sign (v1 sponsor) (v1 candidate) in
  let pz sign := primary sign (v2 sponsor) (v2 candidate) in
  let sx := shear (v0 sponsor) (v0 candidate) in
  let sy := shear (v1 sponsor) (v1 candidate) in
  let sz := shear (v2 sponsor) (v2 candidate) in
  if code =? 0 then Vox (px 1) sy sz (v3 candidate)
  else if code =? 1 then Vox (px (-1)) sy sz (v3 candidate)
  else if code =? 2 then Vox sx (py 1) sz (v3 candidate)
  else if code =? 3 then Vox sx (py (-1)) sz (v3 candidate)
  else if code =? 4 then Vox sx sy (pz (-1)) (v3 candidate)
  else if code =? 5 then Vox sx sy (pz 1) (v3 candidate)
  else candidate.

(** A constraint function [f] with clamping statements [adj] answers "no
    change" exactly when no coordinate was changed, and the adjusted list
    otherwise. *)
Definition sentinel_iff_unchanged (f : vox -> vox -> Z -> Z -> option vox)
    (adj : vox -> vox -> Z -> Z -> vox) : Prop :=
  forall sponsor candidate step stiffness,
    (f sponsor candidate step stiffness = None <->
     xyz (adj sponsor candidate step stiffness) = xyz candidate) /\
    (forall c', f sponsor candidate step stiffness = Some c' <->
       c' = adj sponsor candidate step stiffness /\ xyz c' <> xyz candidate).

(** The scenario of the specification: the 3 x 3 x 3 lattice with unit
    spacing, the center voxel displaced by (1, 0, 0), one layer of rigid
    sponsors, stiffness 0.  [scenario_start] is the state in which the
    propagation loop starts, [scenario_end] the one in which it ends. *)
Definition scenario_start : state := Eval vm_compute in
  match deform_init exact_side (1, 1, 1) 1 (1, 0, 0) (lattice 0 3) 1 with
  | Ok st => st
  | Raise _ => State [] [] [] []
  end.

Definition scenario_end : state := Eval vm_compute in
  match propagate exact_side 32 (lattice 0 3) 1 0 scenario_start with
  | Some (Ok st) => st
  | _ => scenario_start
  end.

(** The same lattice with a zero displacement vector and stiffness 1: the
    state in which [deform] ends. *)
Definition still_end : state := Eval vm_compute in
  match deform_run exact_side (1, 1, 1) 1 (0, 0, 0) (lattice 0 3) 1 1 with
  | Some (Ok st) => st
  | _ => State [] [] [] []
  end.

(** ** Notions for the further properties *)

(** The bound test [find_neighbors] makes for a candidate, read off its
    direction code and its moved coordinate. *)
Definition in_boundsb (side_length : Z) (c : vox) : bool :=
  if v3 c =? 0 then v0 c <? side_length
  else if v3 c =? 1 then 0 <=? v0 c
  else if v3 c =? 2 then v1 c <? side_length
  else if v3 c =? 3 then 0 <=? v1 c
  else if v3 c =? 4 then 0 <=? v2 c
  else if v3 c =? 5 then v2 c <? side_length
  else false.

(** The candidates [find_neighbors] looks at: the four in the x/y plane, and
    the two along z unless [surface_only]. *)
Definition considered (sponsor : pos) (step : Z) (surface_only : bool) : list vox :=
  if surface_only then take 4 (candidates sponsor step) else candidates sponsor step.

(** The candidate is in the grid at an index that is not in the history. *)
Definition unvisitedb (cube : list pos) (hist : list Z) (c : vox) : bool :=
  match find_index (xyz c) cube with
  | Ok i => negb (bool_decide (i ∈ hist))
  | Raise _ => false
  end.

Definition wanted (side_length : Z) (cube : list pos) (hist : list Z) (c : vox) : bool :=
  in_boundsb side_length c && unvisitedb cube hist c.

(** [find_neighbors] as one pass over the candidates it looks at. *)
Fixpoint scan (cs : list vox) (cube : list pos) (hist : list Z) (side_length : Z)
    (acc : list vox) : result (list vox) :=
  match cs with
  | [] => Ok acc
  | c :: cs =>
      let* acc := if in_boundsb side_length c then keep_unvisited c cube hist acc
                  else Ok acc in
      scan cs cube hist side_length acc
  end.

(** The offsets of [candidate] from [sponsor] are inside the ranges of the
    direction [code]: the primary one, signed by the direction, in
    [[step - k, step + k]], the two others in [[- k, k]]. *)
Definition within (code : Z) (sponsor candidate : vox) (step k : Z) : Prop :=
  let dx := v0 candidate - v0 sponsor in
  let dy := v1 candidate - v1 sponsor in
  let dz := v2 candidate - v2 sponsor in
  let shear d := - k <= d <= k in
  let primary d := step - k <= d <= step + k in
  if code =? 0 then primary dx /\ shear dy /\ shear dz
  else if code =? 1 then primary (- dx) /\ shear dy /\ shear dz
  else if code =? 2 then shear dx /\ primary dy /\ shear dz
  else if code =? 3 then shear dx /\ primary (- dy) /\ shear dz
  else if code =? 4 then shear dx /\ shear dy /\ primary (- dz)
  else if code =? 5 then shear dx /\ shear dy /\ primary dz
  else False.


(** * Lemmas *)

(** ** Results *)

Lemma bind_Ok {A B : Type} (r : result A) (k : A -> result B) (b : B) :
  bind r k = Ok b -> exists a, r = Ok a /\ k a = Ok b.
Proof. destruct r as [a|e]; simpl; [eauto | discriminate]. Qed.

Lemma bind_Raise {A B : Type} (r : result A) (k : A -> result B) (e : exn) :
  r = Raise e -> bind r k = Raise e.
Proof. intros ->. reflexivity. Qed.

Ltac inv_bind H :=
  let a := fresh "a" in
  let Ha := fresh "Ha" in
  apply bind_Ok in H; destruct H as (a & Ha & H).

(** ** Subscripts and [find_index] *)

Lemma norm_index_range (n : nat) (i : Z) :
  0 <= i < Z.of_nat n -> norm_index n i = Some (Z.to_nat i).
Proof. intros H. unfold norm_index. rewrite bool_decide_eq_true_2; done. Qed.

Lemma find_index_Ok (p : pos) (m : list pos) (i : Z) :
  find_index p m = Ok i <->
  exists k : nat, i = Z.of_nat k /\ m !! k = Some p /\
                  forall j q, m !! j = Some q -> (j < k)%nat -> q <> p.
Proof.
  unfold find_index. split.
  - destruct (list_find _ m) as [[k q]|] eqn:E; [|discriminate].
    intros [= <-]. apply list_find_Some in E as (Hk & -> & Hmin). eauto.
  - intros (k & -> & Hk & Hmin).
    assert (list_find (fun q => q = p) m = Some (k, p)) as ->; [|done].
    apply list_find_Some. eauto.
Qed.

Lemma find_index_range (p : pos) (m : list pos) (i : Z) :
  find_index p m = Ok i -> 0 <= i < Z.of_nat (length m).
Proof.
  intros (k & -> & Hk & _)%find_index_Ok. apply lookup_lt_Some in Hk. lia.
Qed.

Lemma find_index_inj (p q : pos) (m : list pos) (i : Z) :
  find_index p m = Ok i -> find_index q m = Ok i -> p = q.
Proof.
  intros (k & -> & Hk & _)%find_index_Ok (k' & Heq & Hk' & _)%find_index_Ok.
  assert (k = k') as <- by lia. congruence.
Qed.

Lemma find_index_elem (p : pos) (m : list pos) :
  p ∈ m -> exists i, find_index p m = Ok i.
Proof.
  intros Hp. unfold find_index.
  destruct (list_find_elem_of (fun q => q = p) m p Hp eq_refl) as [[k q] ->]. eauto.
Qed.

Lemma find_index_is_elem (p : pos) (m : list pos) (i : Z) :
  find_index p m = Ok i -> p ∈ m.
Proof.
  intros (k & -> & Hk & _)%find_index_Ok. by eapply list_elem_of_lookup_2.
Qed.

Lemma find_index_absent (p : pos) (m : list pos) :
  p ∉ m -> find_index p m = Raise IndexError.
Proof.
  intros Hp. unfold find_index.
  destruct (list_find _ m) as [[k q]|] eqn:E; [|done].
  apply list_find_Some in E as (Hk & -> & _).
  destruct Hp. by eapply list_elem_of_lookup_2.
Qed.

Lemma getitem_find_index (p : pos) (m : list pos) (i : Z) :
  find_index p m = Ok i -> getitem m i = Ok p.
Proof.
  intros H. pose proof (find_index_range _ _ _ H) as Hr.
  apply find_index_Ok in H as (k & -> & Hk & _).
  unfold getitem. rewrite norm_index_range by done.
  by rewrite Nat2Z.id, Hk.
Qed.

Lemma getitem_range_elem (m : list pos) (i : Z) :
  0 <= i < Z.of_nat (length m) -> exists p, getitem m i = Ok p /\ p ∈ m.
Proof.
  intros H. unfold getitem. rewrite norm_index_range by done.
  destruct (lookup_lt_is_Some_2 m (Z.to_nat i)) as [p Hp]; [lia|].
  rewrite Hp. eauto using list_elem_of_lookup_2.
Qed.

Lemma setitem_range (m : list pos) (i : Z) (p : pos) :
  0 <= i < Z.of_nat (length m) -> setitem m i p = Ok (<[Z.to_nat i:=p]> m).
Proof. intros H. unfold setitem. by rewrite norm_index_range. Qed.

(** ** [find_neighbors] *)

Section Neighbors.

Variable side : nat -> Z -> Z.
Variable cube : list pos.
Variable hist : list Z.

Lemma keep_unvisited_spec (b : bool) (n : vox) (acc acc' : list vox) :
  (if b then keep_unvisited n cube hist acc else Ok acc) = Ok acc' ->
  exists l, acc' = acc ++ l /\ l `sublist_of` [n] /\ Forall (fresh cube hist) l.
Proof.
  destruct b.
  - unfold keep_unvisited. intros H. inv_bind H. injection H as <-.
    case_bool_decide.
    + exists []. rewrite app_nil_r. split_and!; [done| apply sublist_nil_l | constructor].
    + exists [n]. split_and!; [done..|].
      repeat constructor. exists a. done.
  - intros [= <-]. exists []. rewrite app_nil_r.
    split_and!; [done| apply sublist_nil_l | constructor].
Qed.

(** What [find_neighbors] returns is a selection, in order, of the six
    candidates, and each selected neighbor is in the grid at an index that
    is not in the history. *)
Lemma find_neighbors_spec (sponsor : pos) (step : Z) (surface_only : bool)
    (ns : list vox) :
  find_neighbors side sponsor cube hist step surface_only = Ok ns ->
  ns `sublist_of` candidates sponsor step /\ Forall (fresh cube hist) ns.
Proof.
  destruct sponsor as [[s0 s1] s2]. unfold find_neighbors, candidates.
  intros H.
  inv_bind H. apply keep_unvisited_spec in Ha as (l1 & -> & S1 & F1).
  inv_bind H. apply keep_unvisited_spec in Ha as (l2 & -> & S2 & F2).
  inv_bind H. apply keep_unvisited_spec in Ha as (l3 & -> & S3 & F3).
  inv_bind H. apply keep_unvisited_spec in Ha as (l4 & -> & S4 & F4).
  destruct surface_only.
  - injection H as <-. split.
    + apply (sublist_inserts_r [_; _] _ [_; _; _; _]).
      apply (sublist_app _ [_; _; _] _ [_]); [|done].
      apply (sublist_app _ [_; _] _ [_]); [|done].
      apply (sublist_app _ [_] _ [_]); done.
    + rewrite !Forall_app. done.
  - inv_bind H. apply keep_unvisited_spec in Ha as (l5 & -> & S5 & F5).
    inv_bind H. apply keep_unvisited_spec in Ha as (l6 & -> & S6 & F6).
    injection H as <-. split.
    + apply (sublist_app _ [_; _; _; _; _] _ [_]); [|done].
      apply (sublist_app _ [_; _; _; _] _ [_]); [|done].
      apply (sublist_app _ [_; _; _] _ [_]); [|done].
      apply (sublist_app _ [_; _] _ [_]); [|done].
      apply (sublist_app _ [_] _ [_]); done.
    + rewrite !Forall_app. done.
Qed.

Lemma candidates_NoDup (sponsor : pos) (step : Z) :
  step <> 0 -> NoDup (xyz <$> candidates sponsor step).
Proof.
  intros Hs. destruct sponsor as [[s0 s1] s2]. unfold candidates, xyz. simpl.
  repeat (apply NoDup_cons; split;
          [rewrite ?elem_of_cons, elem_of_nil; intros H;
           repeat (destruct H as [H|H]); try done; injection H; lia|]).
  apply NoDup_nil_2.
Qed.

(** Distinct positions that are in the grid have distinct indices. *)
Lemma indices_NoDup (ns : list vox) (ex : list Z) :
  Forall2 (fun n i => find_index (xyz n) cube = Ok i) ns ex ->
  NoDup (xyz <$> ns) -> NoDup ex.
Proof.
  induction 1 as [|n i ns ex Hn Hrest IH]; [constructor|].
  rewrite fmap_cons. intros [Hnotin Hnd]%NoDup_cons.
  apply NoDup_cons. split; [|auto].
  intros Hi. apply list_elem_of_lookup in Hi as [k Hk].
  destruct (Forall2_lookup_r _ _ _ _ _ Hrest Hk) as (n' & Hn' & Hidx).
  apply Hnotin. rewrite (find_index_inj _ _ _ _ Hn Hidx).
  apply list_elem_of_fmap_2. by eapply list_elem_of_lookup_2.
Qed.

(** The neighbors found around a sponsor, when the spacing is not zero,
    have pairwise distinct indices, none of them in the history, all of
    them indices of the grid. *)
Lemma find_neighbors_indices (sponsor : pos) (step : Z) (surface_only : bool)
    (ns : list vox) (ex : list Z) :
  step <> 0 ->
  find_neighbors side sponsor cube hist step surface_only = Ok ns ->
  Forall2 (fun n i => find_index (xyz n) cube = Ok i) ns ex ->
  NoDup ex /\ Forall (fun i => (i ∉ hist) /\ 0 <= i < Z.of_nat (length cube)) ex.
Proof.
  intros Hs [Hsub Hfresh]%find_neighbors_spec Hex. split.
  - eapply indices_NoDup; [done|].
    eapply sublist_NoDup; [by apply candidates_NoDup | by apply fmap_sublist].
  - apply Forall_lookup. intros k i Hk.
    destruct (Forall2_lookup_r _ _ _ _ _ Hex Hk) as (n & Hn & Hidx).
    split; [|by eapply find_index_range].
    destruct (Forall_lookup_1 _ _ _ _ Hfresh Hn) as (i' & Hi' & Hnot).
    congruence.
Qed.

End Neighbors.

(** ** The measure: grid indices outside the history *)

Lemma unvisited_S (n : nat) (hist : list Z) :
  unvisited (S n) hist =
  (unvisited n hist + if decide (Z.of_nat n ∈ hist) then 0 else 1)%nat.
Proof.
  unfold unvisited. rewrite seq_S, filter_app, length_app. simpl.
  rewrite filter_cons, filter_nil. repeat case_decide; simpl; tauto || lia.
Qed.

Lemma unvisited_le (n : nat) (hist : list Z) : (unvisited n hist <= n)%nat.
Proof.
  unfold unvisited. etrans; [apply length_filter|]. by rewrite length_seq.
Qed.

Lemma elem_of_snoc_ne (hist : list Z) (i j : Z) :
  j <> i -> j ∈ hist ++ [i] <-> j ∈ hist.
Proof.
  intros Hne. rewrite elem_of_app, list_elem_of_singleton. tauto.
Qed.

Lemma unvisited_snoc_out (n : nat) (hist : list Z) (i : Z) :
  Z.of_nat n <= i -> unvisited n (hist ++ [i]) = unvisited n hist.
Proof.
  induction n as [|n IH]; [done|]. intros Hi.
  rewrite !unvisited_S, IH by lia.
  assert (Z.of_nat n <> i) as Hne by lia.
  pose proof (elem_of_snoc_ne hist i _ Hne) as Hiff.
  repeat case_decide; tauto || lia.
Qed.

Lemma unvisited_snoc_in (n : nat) (hist : list Z) (i : Z) :
  0 <= i < Z.of_nat n -> i ∉ hist ->
  S (unvisited n (hist ++ [i])) = unvisited n hist.
Proof.
  induction n as [|n IH]; [lia|]. intros Hi Hnot.
  rewrite !unvisited_S.
  destruct (decide (i = Z.of_nat n)) as [->|Hne].
  - rewrite unvisited_snoc_out by lia.
    assert (Z.of_nat n ∈ hist ++ [Z.of_nat n]) as Hin.
    { apply elem_of_app. right. by apply list_elem_of_singleton. }
    repeat case_decide; tauto || lia.
  - rewrite <- IH by (done || lia).
    assert (Z.of_nat n <> i) as Hne' by lia.
    pose proof (elem_of_snoc_ne hist i _ Hne') as Hiff.
    repeat case_decide; tauto || lia.
Qed.

Lemma unvisited_app (n : nat) (ex hist : list Z) :
  NoDup ex ->
  Forall (fun i => (i ∉ hist) /\ 0 <= i < Z.of_nat n) ex ->
  (unvisited n (hist ++ ex) + length ex = unvisited n hist)%nat.
Proof.
  revert hist. induction ex as [|i ex IH]; intros hist Hnd Hall.
  - rewrite app_nil_r. simpl. lia.
  - apply NoDup_cons in Hnd as [Hi Hnd].
    apply Forall_cons in Hall as [[Hnot Hr] Hall].
    rewrite (cons_middle i hist ex), app_assoc. simpl.
    rewrite <- (unvisited_snoc_in n hist i) by done.
    rewrite <- (IH (hist ++ [i])); [lia|done|].
    apply Forall_forall. intros j Hj.
    destruct (proj1 (Forall_forall _ _) Hall j Hj) as [Hj1 Hj2].
    split; [|done]. intros [?|?%list_elem_of_singleton]%elem_of_app; [done|].
    congruence.
Qed.

(** ** The propagation loop *)

Lemma frame_refl (st : state) : frame st st [] [].
Proof.
  unfold frame. rewrite !app_nil_r. split_and!; try done.
Qed.

Lemma frame_trans (st st1 st2 : state) (ex1 cm1 ex2 cm2 : list Z) :
  frame st st1 ex1 cm1 -> frame st1 st2 ex2 cm2 ->
  frame st st2 (ex1 ++ ex2) (cm1 ++ cm2).
Proof.
  intros (H1 & C1 & S1 & L1 & M1) (H2 & C2 & S2 & L2 & M2).
  unfold frame. rewrite H2, H1, C2, C1, L2, L1, !app_assoc.
  split_and!; try done.
  - by apply sublist_app.
  - intros k Hk. apply elem_of_app.
    destruct (decide (new_matrix st1 !! k = new_matrix st !! k)) as [E|E].
    + right. apply M2. congruence.
    + left. by apply M1.
Qed.

Lemma frame_queue (st st' : state) (q : list vox) (ex cm : list Z) :
  frame st st' ex cm ->
  frame (State q (sponsor_history st) (new_matrix st) (committed st)) st' ex cm.
Proof. done. Qed.

Lemma setitem_Ok_nonneg (m m' : list pos) (i : Z) (p : pos) :
  0 <= i -> setitem m i p = Ok m' ->
  m' = <[Z.to_nat i:=p]> m /\ 0 <= i < Z.of_nat (length m).
Proof.
  unfold setitem, norm_index. intros Hi H.
  repeat case_bool_decide; try discriminate; try lia.
  injection H as <-. done.
Qed.

Section Loop.

Variable side : nat -> Z -> Z.
Variable cube : list pos.
Variables step stiff : Z.

(** One neighbor: its index goes into the history; on "no change" nothing
    else happens, otherwise the adjusted row is queued under that index
    and written into the output grid at that index. *)
Lemma examine_Ok (us : vox) (st st' : state) (n : vox) :
  examine cube step stiff us st n = Ok st' ->
  exists i, find_index (xyz n) cube = Ok i /\
    sponsor_history st' = sponsor_history st ++ [i] /\
    match deform_neighbour us n step stiff with
    | None =>
        original_sponsors st' = original_sponsors st /\
        new_matrix st' = new_matrix st /\
        committed st' = committed st
    | Some c =>
        original_sponsors st' = original_sponsors st ++ [set3 c i] /\
        new_matrix st' = <[Z.to_nat i:=xyz c]> (new_matrix st) /\
        committed st' = committed st ++ [i]
    end.
Proof.
  unfold examine. intros H. inv_bind H. exists a.
  pose proof (find_index_range _ _ _ Ha) as Hr.
  destruct (deform_neighbour us n step stiff) as [c|].
  - inv_bind H. injection H as <-. simpl.
    apply setitem_Ok_nonneg in Ha0 as [-> _]; [|lia]. done.
  - injection H as <-. done.
Qed.

Lemma examine_frame (us : vox) (st st' : state) (n : vox) :
  examine cube step stiff us st n = Ok st' ->
  exists i q, find_index (xyz n) cube = Ok i /\
    frame st st' [i] (v3 <$> q) /\
    original_sponsors st' = original_sponsors st ++ q.
Proof.
  intros (i & Hi & Hh & H)%examine_Ok. exists i.
  destruct (deform_neighbour us n step stiff) as [c|].
  - destruct H as (Hq & Hm & Hc). exists [set3 c i].
    split_and!; try done. unfold frame. rewrite Hh, Hc, Hm, length_insert.
    split_and!; try done.
    intros k Hk. apply list_elem_of_singleton.
    destruct (decide (Z.to_nat i = k)) as [<-|Hne].
    + apply find_index_range in Hi. simpl. lia.
    + by rewrite list_lookup_insert_ne in Hk.
  - destruct H as (Hq & Hm & Hc). exists [].
    split_and!; try done; [|by rewrite app_nil_r].
    unfold frame. rewrite Hh, Hc, Hm, app_nil_r.
    split_and!; try done. apply sublist_nil_l.
Qed.

Lemma examine_all_frame (us : vox) (ns : list vox) (st st' : state) :
  examine_all cube step stiff us ns st = Ok st' ->
  exists ex q,
    Forall2 (fun n i => find_index (xyz n) cube = Ok i) ns ex /\
    frame st st' ex (v3 <$> q) /\
    original_sponsors st' = original_sponsors st ++ q.
Proof.
  revert st. induction ns as [|n ns IH]; intros st H; simpl in H.
  - injection H as <-. exists [], []. rewrite app_nil_r.
    split_and!; [constructor | apply frame_refl | done].
  - inv_bind H. apply examine_frame in Ha as (i & q1 & Hi & F1 & Q1).
    apply IH in H as (ex & q2 & Hex & F2 & Q2).
    exists (i :: ex), (q1 ++ q2). split_and!.
    + by constructor.
    + rewrite fmap_app. apply (frame_trans _ _ _ [i] _ ex _ F1 F2).
    + by rewrite Q2, Q1, app_assoc.
Qed.

(** One round of the outer loop. *)
Lemma round_frame (us : vox) (st st' : state) :
  round side cube step stiff us st = Ok st' ->
  exists ex q,
    frame st st' ex (v3 <$> q) /\
    original_sponsors st' = original_sponsors st ++ q /\
    Forall (fun i => 0 <= i < Z.of_nat (length cube)) ex /\
    (step <> 0 -> NoDup ex /\ Forall (fun i => i ∉ sponsor_history st) ex).
Proof.
  unfold round. intros H. inv_bind H. inv_bind H.
  apply examine_all_frame in H as (ex & q & Hex & F & Q).
  exists ex, q. split_and!; try done.
  - apply Forall_lookup. intros k i Hk.
    destruct (Forall2_lookup_r _ _ _ _ _ Hex Hk) as (n & _ & Hidx).
    by eapply find_index_range.
  - intros Hs.
    destruct (find_neighbors_indices _ _ _ _ _ _ _ _ Hs Ha0 Hex) as [Hnd Hall].
    split; [done|]. eapply Forall_impl; [exact Hall|]. simpl. tauto.
Qed.

End Loop.

Section Propagation.

Variable side : nat -> Z -> Z.
Variable cube : list pos.
Variables step stiff : Z.

(** The whole loop, when it ends normally: the queue is empty, the history
    grew by the examined indices, which are indices of the grid and, for a
    spacing that is not zero, pairwise distinct and new. *)
Lemma propagate_frame (fuel : nat) (st st' : state) :
  propagate side fuel cube step stiff st = Some (Ok st') ->
  exists ex cm,
    frame st st' ex cm /\
    original_sponsors st' = [] /\
    Forall (fun i => 0 <= i < Z.of_nat (length cube)) ex /\
    (step <> 0 -> NoDup ex /\ Forall (fun i => i ∉ sponsor_history st) ex).
Proof.
  revert st. induction fuel as [|fuel IH]; intros st H.
  - simpl in H. destruct (original_sponsors st) eqn:Q; [|discriminate].
    injection H as <-. exists [], [].
    split_and!; [apply frame_refl|done|constructor|].
    intros _. split; constructor.
  - simpl in H. destruct (original_sponsors st) as [|us rest] eqn:Q.
    { injection H as <-. exists [], [].
      split_and!; [apply frame_refl|done|constructor|].
      intros _. split; constructor. }
    destruct (round _ _ _ _ _ _) as [st1|e] eqn:R; [|discriminate].
    apply round_frame in R as (ex1 & q & F1 & _ & R1 & N1).
    apply IH in H as (ex2 & cm2 & F2 & E2 & R2 & N2).
    exists (ex1 ++ ex2), ((v3 <$> q) ++ cm2).
    split_and!; [|done|by apply Forall_app|].
    + exact (frame_trans st st1 st' _ _ _ _ F1 F2).
    + intros Hs. destruct (N1 Hs) as [Nd1 A1]. destruct (N2 Hs) as [Nd2 A2].
      destruct F1 as (Hh & _). simpl in Hh, A1. rewrite Hh in A2.
      split.
      * apply NoDup_app. split_and!; [done| |done].
        intros i Hi1 Hi2.
        apply (proj1 (Forall_forall _ _) A2 i Hi2), elem_of_app. by right.
      * apply Forall_app. split; [done|].
        eapply Forall_impl; [exact A2|]. simpl. intros i Hi Hin.
        apply Hi, elem_of_app. by left.
Qed.

(** A round never increases the length of the queue plus the number of
    unvisited indices. *)
Lemma round_potential (us : vox) (st st' : state) :
  step <> 0 ->
  round side cube step stiff us st = Ok st' ->
  (length (original_sponsors st') + unvisited (length cube) (sponsor_history st')
   <= length (original_sponsors st) + unvisited (length cube) (sponsor_history st))%nat.
Proof.
  intros Hs (ex & q & F & Q & R & N)%round_frame.
  destruct (N Hs) as [Nd A]. destruct F as (Hh & _ & Hsub & _).
  rewrite Q, Hh, length_app.
  apply sublist_length in Hsub. rewrite length_fmap in Hsub.
  pose proof (unvisited_app (length cube) ex (sponsor_history st) Nd) as U.
  rewrite <- U; [lia|].
  apply Forall_forall. intros i Hi.
  split; [exact (proj1 (Forall_forall _ _) A i Hi)
         |exact (proj1 (Forall_forall _ _) R i Hi)].
Qed.

(** With a spacing that is not zero the loop ends, normally or by an
    exception, within as many rounds as the queue is long plus the number
    of unvisited indices. *)
Lemma propagate_enough_fuel (fuel : nat) (st : state) :
  step <> 0 ->
  (length (original_sponsors st) + unvisited (length cube) (sponsor_history st)
   <= fuel)%nat ->
  is_Some (propagate side fuel cube step stiff st).
Proof.
  intros Hs. revert st. induction fuel as [|fuel IH]; intros st Hf.
  - simpl. destruct (original_sponsors st); [done|]. simpl in Hf. lia.
  - simpl. destruct (original_sponsors st) as [|us rest] eqn:Q; [done|].
    destruct (round _ _ _ _ _ _) as [st1|e] eqn:R; [|done].
    apply IH. apply round_potential in R; [|done]. simpl in R, Hf. lia.
Qed.

(** *** A grid closed under the neighbor steps raises nothing *)

Lemma keep_unvisited_closed (c : bool) (n : vox) (hist : list Z) (acc : list vox) :
  negb c || bool_decide (xyz n ∈ cube) = true ->
  exists acc', (if c then keep_unvisited n cube hist acc else Ok acc) = Ok acc'.
Proof.
  destruct c; simpl; [|eauto].
  intros Hin%bool_decide_eq_true_1.
  destruct (find_index_elem _ _ Hin) as [i Hi].
  unfold keep_unvisited. rewrite Hi. simpl. eauto.
Qed.

Lemma find_neighbors_closed (sponsor : pos) (hist : list Z) (surface_only : bool) :
  closedb side cube step = true -> sponsor ∈ cube ->
  exists ns, find_neighbors side sponsor cube hist step surface_only = Ok ns.
Proof.
  unfold closedb. rewrite forallb_forall. intros Hall Hin.
  apply list_elem_of_In, Hall in Hin. destruct sponsor as [[s0 s1] s2].
  rewrite !andb_true_iff in Hin.
  destruct Hin as (((((H1 & H2) & H3) & H4) & H5) & H6).
  unfold find_neighbors.
  destruct (keep_unvisited_closed _ (Vox (s0 + step) s1 s2 0) hist [] H1) as [a1 ->].
  simpl.
  destruct (keep_unvisited_closed _ (Vox (s0 - step) s1 s2 1) hist a1 H2) as [a2 ->].
  simpl.
  destruct (keep_unvisited_closed _ (Vox s0 (s1 + step) s2 2) hist a2 H3) as [a3 ->].
  simpl.
  destruct (keep_unvisited_closed _ (Vox s0 (s1 - step) s2 3) hist a3 H4) as [a4 ->].
  simpl. destruct surface_only; [eauto|].
  destruct (keep_unvisited_closed _ (Vox s0 s1 (s2 - step) 4) hist a4 H5) as [a5 ->].
  simpl.
  destruct (keep_unvisited_closed _ (Vox s0 s1 (s2 + step) 5) hist a5 H6) as [a6 ->].
  simpl. eauto.
Qed.

Lemma examine_all_total (us : vox) (ns : list vox) (st : state) :
  Forall (fun n => exists i, find_index (xyz n) cube = Ok i) ns ->
  length (new_matrix st) = length cube ->
  exists st', examine_all cube step stiff us ns st = Ok st'.
Proof.
  revert st. induction ns as [|n ns IH]; intros st Hall Hlen; simpl; [eauto|].
  apply Forall_cons in Hall as [[i Hi] Hall].
  pose proof (find_index_range _ _ _ Hi) as Hr.
  unfold examine. rewrite Hi. simpl.
  destruct (deform_neighbour us n step stiff) as [c|]; simpl.
  - rewrite setitem_range by (rewrite Hlen; done). simpl.
    apply IH; [done|]. simpl. by rewrite length_insert.
  - apply IH; done.
Qed.

Lemma round_total (us : vox) (st : state) :
  closedb side cube step = true ->
  0 <= v3 us < Z.of_nat (length cube) ->
  length (new_matrix st) = length cube ->
  exists st', round side cube step stiff us st = Ok st'.
Proof.
  intros Hc Hus Hlen. unfold round.
  destruct (getitem_range_elem cube (v3 us) Hus) as (sponsor & -> & Hin). simpl.
  destruct (find_neighbors_closed sponsor (sponsor_history st) false Hc Hin)
    as [ns Hns].
  rewrite Hns. simpl.
  apply examine_all_total; [|done].
  apply find_neighbors_spec in Hns as [_ Hfresh].
  eapply Forall_impl; [exact Hfresh|]. intros n (i & Hi & _). eauto.
Qed.

Lemma propagate_no_raise (fuel : nat) (st : state) (e : exn) :
  closedb side cube step = true ->
  tags_in_range cube (original_sponsors st) ->
  length (new_matrix st) = length cube ->
  propagate side fuel cube step stiff st <> Some (Raise e).
Proof.
  intros Hc. revert st. induction fuel as [|fuel IH]; intros st Ht Hlen; simpl.
  - destruct (original_sponsors st); discriminate.
  - destruct (original_sponsors st) as [|us rest] eqn:Q; [discriminate|].
    apply Forall_cons in Ht as [Hus Hrest].
    destruct (round_total us (State rest (sponsor_history st) (new_matrix st)
                                (committed st)) Hc Hus Hlen) as [st1 R].
    rewrite R.
    apply round_frame in R as (ex & q & F & Hq & Hr & _). simpl in Hq.
    destruct F as (_ & _ & Hsub & Hl & _). simpl in Hl.
    apply IH; [|congruence].
    unfold tags_in_range. rewrite Hq. apply Forall_app. split; [done|].
    apply Forall_forall. intros el Hel.
    apply (proj1 (Forall_forall _ _) Hr (v3 el)).
    eapply elem_of_sublist; [|exact Hsub]. by apply list_elem_of_fmap_2.
Qed.

End Propagation.

(** ** The sponsor region *)

Section Region.

Variable side : nat -> Z -> Z.
Variable cube : list pos.
Variable step : Z.

Lemma find_index_raises (p : pos) (e : exn) :
  find_index p cube = Raise e -> e = IndexError.
Proof.
  unfold find_index. destruct (list_find _ cube) as [[k q]|]; congruence.
Qed.

(** Once the sponsor array has two dimensions, a further layer cannot be
    appended. *)
Lemma layers_Rows_raises (n : nat) (rows outside_layer : list vox) (hist : list Z) :
  is_raise (layers side (S n) (Rows rows) outside_layer cube hist step).
Proof.
  simpl. destruct (drain _ _ _ _ _ _) as [[storage h]|e]; simpl; [|done].
  destruct storage; done.
Qed.

(** Two layers or more always raise. *)
Lemma layers_two_raises (n : nat) (r : vox) (outside_layer : list vox) (hist : list Z) :
  is_raise (layers side (S (S n)) (Row r) outside_layer cube hist step).
Proof.
  cbn [layers]. destruct (drain _ _ _ _ _ _) as [[storage h]|e]; [|done].
  cbn [bind fst snd]. destruct storage as [|el storage]; [done|].
  cbn [append_layer bind]. apply layers_Rows_raises.
Qed.

(** One layer that succeeds: the storage layer followed by the row of the
    source. *)
Lemma layers_Ok (n : nat) (r : vox) (outside_layer : list vox) (hist : list Z)
    (os : sponsors) :
  layers side n (Row r) outside_layer cube hist step = Ok os ->
  (n = O /\ os = Row r) \/
  (n = 1%nat /\ exists storage h,
      drain side outside_layer [] cube hist step = Ok (storage, h) /\
      storage <> [] /\ os = Rows (storage ++ [r])).
Proof.
  destruct n as [|[|n]].
  - intros [= <-]. by left.
  - simpl. intros H. right. split; [done|].
    destruct (drain _ _ _ _ _ _) as [[storage h]|e]; [|discriminate].
    simpl in H. destruct storage as [|el storage]; [discriminate|].
    simpl in H. injection H as <-. exists (el :: storage), h. done.
  - intros H. pose proof (layers_two_raises n r outside_layer hist) as Hr.
    rewrite H in Hr. done.
Qed.

Lemma retag_tags (storage storage' : list vox) (hist hist' : list Z) :
  retag storage cube hist = Ok (storage', hist') ->
  Forall (fun el => 0 <= v3 el < Z.of_nat (length cube)) storage'.
Proof.
  revert storage' hist hist'.
  induction storage as [|el rest IH]; intros storage' hist hist' H; simpl in H.
  - injection H as <- <-. constructor.
  - inv_bind H. inv_bind H. destruct a0 as [rest' h]. injection H as <- <-.
    constructor; [|by eapply IH].
    simpl. by eapply find_index_range.
Qed.

Lemma drain_tags (outside_layer storage storage' : list vox) (hist hist' : list Z) :
  drain side outside_layer storage cube hist step = Ok (storage', hist') ->
  Forall (fun el => 0 <= v3 el < Z.of_nat (length cube)) storage ->
  Forall (fun el => 0 <= v3 el < Z.of_nat (length cube)) storage'.
Proof.
  revert storage hist.
  induction outside_layer as [|el rest IH]; intros storage hist H Hall; simpl in H.
  - by injection H as <- <-.
  - inv_bind H. inv_bind H. inv_bind H. destruct a1 as [s1 h1].
    eapply IH; [exact H|]. simpl. by eapply retag_tags.
Qed.

(** Around a voxel whose index is in the history, a spacing of zero finds
    no neighbor: every candidate is the voxel itself. *)
Lemma find_neighbors_step0 (sponsor : pos) (hist : list Z) (i : Z)
    (surface_only : bool) :
  find_index sponsor cube = Ok i -> i ∈ hist ->
  find_neighbors side sponsor cube hist 0 surface_only = Ok [].
Proof.
  intros Hi Hin. destruct sponsor as [[s0 s1] s2].
  unfold find_neighbors, keep_unvisited, xyz. simpl.
  rewrite !Z.add_0_r, !Z.sub_0_r, Hi. simpl.
  rewrite bool_decide_eq_true_2 by done.
  repeat (match goal with |- context [if ?c then _ else _] => destruct c end; simpl);
    reflexivity.
Qed.

Lemma translate_tags (os : sponsors) (vec : pos) (rows : list vox) :
  translate os vec = Ok rows ->
  exists rs, os = Rows rs /\ v3 <$> rows = v3 <$> rs.
Proof.
  destruct os as [r|rs]; [discriminate|]. simpl. intros [= <-].
  exists rs. split; [done|]. rewrite <- list_fmap_compose.
  apply list_fmap_ext. intros _ el _. simpl.
  unfold with_tag, padd, xyz. by destruct vec as [[? ?] ?].
Qed.

(** Any displacement area other than 1 makes [find_original_sponsors]
    raise; for areas below 1 the exception is an [IndexError]. *)
Lemma find_original_sponsors_not_one (dst src : pos) (area : Z) :
  area <> 1 ->
  exists e, find_original_sponsors side dst src cube step area = Raise e /\
            (area <= 0 -> e = IndexError).
Proof.
  intros Ha. unfold find_original_sponsors.
  destruct (find_index src cube) as [i|e] eqn:Hi; simpl.
  { destruct (Z.to_nat area) as [|[|n]] eqn:Hn.
    - simpl. eauto.
    - lia.
    - pose proof (layers_two_raises n (with_tag dst i) [with_tag dst i] [i]) as Hr.
      destruct (layers _ _ _ _ _ _ _) as [os|e]; [done|]. simpl.
      exists e. split; [done|lia]. }
  exists e. split; [done|]. intros _. by eapply find_index_raises.
Qed.

(** A spacing of zero makes [find_original_sponsors] raise. *)
Lemma find_original_sponsors_step0 (dst src : pos) (area : Z) :
  step = 0 -> is_raise (find_original_sponsors side dst src cube step area).
Proof.
  intros Hs. destruct (decide (area = 1)) as [->|Hne].
  2:{ destruct (find_original_sponsors_not_one dst src area Hne) as (e & -> & _).
      done. }
  unfold find_original_sponsors. rewrite Hs. destruct dst as [[d0 d1] d2].
  destruct (find_index src cube) as [i|e] eqn:Hi; simpl; [|done].
  rewrite (getitem_find_index _ _ _ Hi). simpl.
  rewrite (find_neighbors_step0 src [i] i true Hi) by (by apply list_elem_of_singleton).
  simpl. done.
Qed.

(** The rows [find_original_sponsors] returns carry indices of the grid. *)
Lemma find_original_sponsors_tags (dst src : pos) (area : Z) (rows : list vox) :
  find_original_sponsors side dst src cube step area = Ok rows ->
  Forall (fun i => 0 <= i < Z.of_nat (length cube)) (v3 <$> rows).
Proof.
  unfold find_original_sponsors. intros H. inv_bind H. inv_bind H.
  apply translate_tags in H as (rs & -> & ->).
  apply layers_Ok in Ha0 as [[_ Hos]|(_ & storage & h & Hd & _ & Hos)];
    [discriminate|].
  injection Hos as Hrs. subst rs.
  apply Forall_fmap, Forall_app. split.
  - apply (drain_tags _ _ _ _ _ Hd). constructor.
  - apply find_index_range in Ha. destruct dst as [[d0 d1] d2].
    repeat constructor; simpl; lia.
Qed.

End Region.

(** ** [deform] as a whole *)

Section Whole.

Variable side : nat -> Z -> Z.
Variable cube : list pos.
Variables step stiff : Z.

Lemma deform_raise (src vec : pos) (area : Z) (e : exn) :
  find_original_sponsors side (padd src vec) src cube step area = Raise e ->
  deform_init side src area vec cube step = Raise e /\
  deform side src area vec cube step stiff = Some (Raise e).
Proof.
  intros H. unfold deform, deform_run, deform_init. rewrite H. done.
Qed.

Lemma write_sponsors_frame (rows : list vox) (m m' : list pos) :
  Forall (fun i => 0 <= i) (v3 <$> rows) ->
  write_sponsors rows m = Ok m' ->
  length m' = length m /\
  forall k : nat, m' !! k <> m !! k -> Z.of_nat k ∈ v3 <$> rows.
Proof.
  revert m. induction rows as [|el rows IH]; intros m Hall H; simpl in H.
  - injection H as <-. done.
  - rewrite fmap_cons in Hall. apply Forall_cons in Hall as [Hel Hall].
    inv_bind H. apply setitem_Ok_nonneg in Ha as [-> Hr]; [|done].
    destruct (IH _ Hall H) as [Hlen Hk]. rewrite length_insert in Hlen.
    split; [done|]. intros k Hne. rewrite fmap_cons, elem_of_cons.
    destruct (decide (Z.to_nat (v3 el) = k)) as [<-|Hk'].
    + left. lia.
    + right. apply Hk. by rewrite list_lookup_insert_ne.
Qed.

(** The state in which the loop starts: the queue is the sponsor region,
    the history its indices, the output grid the input grid with changes
    at those indices only. *)
Lemma deform_init_Ok (src vec : pos) (area : Z) (st : state) :
  deform_init side src area vec cube step = Ok st ->
  exists rows,
    find_original_sponsors side (padd src vec) src cube step area = Ok rows /\
    original_sponsors st = rows /\
    sponsor_history st = v3 <$> rows /\
    committed st = [] /\
    tags_in_range cube rows /\
    length (new_matrix st) = length cube /\
    forall k : nat, new_matrix st !! k <> cube !! k -> Z.of_nat k ∈ v3 <$> rows.
Proof.
  unfold deform_init. intros H. inv_bind H. inv_bind H. injection H as <-.
  exists a. pose proof (find_original_sponsors_tags _ _ _ _ _ _ _ Ha) as Ht.
  destruct (write_sponsors_frame a cube a0) as [Hlen Hk]; [|done|].
  { eapply Forall_impl; [exact Ht|]. simpl. lia. }
  split_and!; try done. by apply Forall_fmap in Ht.
Qed.

(** What a completed run did: the history is the indices of the sponsor
    region followed by the examined ones; the output grid differs from the
    input grid only at indices of the sponsor region or committed ones. *)
Lemma deform_run_Ok (src vec : pos) (area : Z) (st : state) :
  deform_run side src area vec cube step stiff = Some (Ok st) ->
  exists rows ex,
    find_original_sponsors side (padd src vec) src cube step area = Ok rows /\
    sponsor_history st = (v3 <$> rows) ++ ex /\
    committed st `sublist_of` ex /\
    Forall (fun i => 0 <= i < Z.of_nat (length cube)) ex /\
    (step <> 0 -> NoDup ex /\ Forall (fun i => i ∉ v3 <$> rows) ex) /\
    length (new_matrix st) = length cube /\
    forall k : nat, new_matrix st !! k <> cube !! k ->
                    Z.of_nat k ∈ v3 <$> rows \/ Z.of_nat k ∈ committed st.
Proof.
  unfold deform_run.
  destruct (deform_init _ _ _ _ _ _) as [st0|e] eqn:Hinit; [|discriminate].
  apply deform_init_Ok in Hinit as (rows & Hf & _ & Hh & Hc & _ & Hlen & Hk).
  intros (ex & cm & (Fh & Fc & Fs & Fl & Fk) & _ & Hr & N)%propagate_frame.
  rewrite Hh in Fh, N. rewrite Hc in Fc. simpl in Fc.
  exists rows, ex. rewrite Fc. split_and!; try done; [congruence|].
  intros k Hne.
  destruct (decide (new_matrix st0 !! k = cube !! k)) as [E|E].
  - right. apply Fk. congruence.
  - left. by apply Hk.
Qed.

(** The loop of [deform] is never entered with a spacing of zero. *)
Lemma deform_init_step (src vec : pos) (area : Z) (st : state) :
  deform_init side src area vec cube step = Ok st -> step <> 0.
Proof.
  intros (rows & Hf & _)%deform_init_Ok Hs.
  pose proof (find_original_sponsors_step0 side cube step (padd src vec) src
                area Hs) as Hraise.
  by rewrite Hf in Hraise.
Qed.

(** The fuel [deform_run] gives its loop is never used up. *)
Lemma deform_run_total (src vec : pos) (area : Z) :
  is_Some (deform_run side src area vec cube step stiff).
Proof.
  unfold deform_run.
  destruct (deform_init _ _ _ _ _ _) as [st0|e] eqn:Hinit; [|done].
  apply propagate_enough_fuel; [by eapply deform_init_step|].
  pose proof (unvisited_le (length cube) (sponsor_history st0)). lia.
Qed.

End Whole.

(** ** The constraint functions keep the fourth entry *)

Ltac clamp_cases :=
  repeat match goal with
         | |- context [if ?c then _ else _] => destruct c; simpl
         end.

Lemma adjust_right_v3 (s c : vox) (step k : Z) : v3 (adjust_right s c step k) = v3 c.
Proof. unfold adjust_right. clamp_cases; reflexivity. Qed.

Lemma adjust_left_v3 (s c : vox) (step k : Z) : v3 (adjust_left s c step k) = v3 c.
Proof. unfold adjust_left. clamp_cases; reflexivity. Qed.

Lemma adjust_top_v3 (s c : vox) (step k : Z) : v3 (adjust_top s c step k) = v3 c.
Proof. unfold adjust_top. clamp_cases; reflexivity. Qed.

Lemma adjust_lower_v3 (s c : vox) (step k : Z) : v3 (adjust_lower s c step k) = v3 c.
Proof. unfold adjust_lower. clamp_cases; reflexivity. Qed.

Lemma adjust_down_v3 (s c : vox) (step k : Z) : v3 (adjust_down s c step k) = v3 c.
Proof. unfold adjust_down. clamp_cases; reflexivity. Qed.

Lemma adjust_up_v3 (s c : vox) (step k : Z) : v3 (adjust_up s c step k) = v3 c.
Proof. unfold adjust_up. clamp_cases; reflexivity. Qed.

Lemma vox_eq (a b : vox) : xyz a = xyz b -> v3 a = v3 b -> a = b.
Proof. destruct a, b. unfold xyz. simpl. congruence. Qed.

Lemma unchanged_or_spec (c c2 : vox) :
  v3 c2 = v3 c ->
  (unchanged_or c c2 = None <-> xyz c2 = xyz c) /\
  (forall c', unchanged_or c c2 = Some c' <-> c' = c2 /\ xyz c' <> xyz c).
Proof.
  intros Hv. unfold unchanged_or. case_bool_decide as E.
  - subst c2. split; [done|]. intros c'. split; [discriminate|].
    intros [-> Hne]. done.
  - split.
    + split; [discriminate|]. intros Hx. destruct E. symmetry. by apply vox_eq.
    + intros c'. split.
      * intros [= <-]. split; [done|]. intros Hx. destruct E. symmetry.
        by apply vox_eq.
      * intros [-> _]. done.
Qed.

(** ** The sponsor region over a closed grid *)

Section ClosedRegion.

Variable side : nat -> Z -> Z.
Variable cube : list pos.
Variable step : Z.
Hypothesis closed : closedb side cube step = true.

Lemma retag_total (storage : list vox) (hist : list Z) :
  Forall (fun el => xyz el ∈ cube) storage ->
  exists storage' hist',
    retag storage cube hist = Ok (storage', hist') /\
    Forall (fun el => xyz el ∈ cube) storage'.
Proof.
  revert hist. induction storage as [|el rest IH]; intros hist Hall; simpl.
  - exists [], hist. split; [done|constructor].
  - apply Forall_cons in Hall as [Hel Hall].
    destruct (find_index_elem _ _ Hel) as [i ->]. simpl.
    destruct (IH (hist ++ [i]) Hall) as (rest' & h' & -> & Hrest). simpl.
    exists (set3 el i :: rest'), h'. split; [done|]. by constructor.
Qed.

Lemma drain_total (outside_layer storage : list vox) (hist : list Z) :
  tags_in_range cube outside_layer ->
  Forall (fun el => xyz el ∈ cube) storage ->
  exists r, drain side outside_layer storage cube hist step = Ok r.
Proof.
  revert storage hist.
  induction outside_layer as [|el rest IH]; intros storage hist Ht Hall; simpl.
  - eauto.
  - apply Forall_cons in Ht as [Hel Ht].
    destruct (getitem_range_elem cube (v3 el) Hel) as (sponsor & -> & Hin). simpl.
    destruct (find_neighbors_closed side cube step sponsor hist true closed Hin)
      as [ns Hns].
    rewrite Hns. simpl.
    destruct (retag_total (storage ++ ns) hist) as (s' & h' & -> & Hs').
    { apply Forall_app. split; [done|].
      apply find_neighbors_spec in Hns as [_ Hfresh].
      eapply Forall_impl; [exact Hfresh|]. intros n (i & Hi & _).
      by eapply find_index_is_elem. }
    simpl. by apply IH.
Qed.

(** Over a closed grid the exception of a second layer is the one of the
    append: arrays of two and of three dimensions, or of one and of two. *)
Lemma layers_two_ValueError (n : nat) (r : vox) (outside_layer : list vox)
    (hist : list Z) :
  tags_in_range cube outside_layer ->
  layers side (S (S n)) (Row r) outside_layer cube hist step = Raise ValueError.
Proof.
  intros Ht. cbn [layers].
  destruct (drain_total outside_layer [] hist Ht) as [[storage h] Hd]; [constructor|].
  rewrite Hd. cbn [bind fst snd].
  destruct storage as [|el storage]; [done|]. cbn [append_layer bind].
  destruct (drain_total (el :: storage) [] h) as [[storage2 h2] ->]; [|constructor|].
  { eapply drain_tags; [exact Hd|constructor]. }
  cbn [bind fst snd]. by destruct storage2.
Qed.

End ClosedRegion.

(** * The claims *)

(** C1 (the program departs from the claim).  The claim: each of the six
    functions clamps the primary offset into [step - stiffness, step +
    stiffness] and both shear offsets into [- stiffness, stiffness], each
    relative to the sponsor's coordinate on the same axis.  The program does
    not: [deform_right] adds the upper bound to the sponsor's y coordinate,
    [deform_left] puts a shear offset below the range at the upper bound, and
    [deform_up] moves a candidate whose offset is inside the range. *)
Theorem directional_clamps_depart_from_contract :
  (adjust_right (Vox 0 5 0 13) (Vox 3 5 0 0) 1 0 = Vox 6 5 0 0 /\
   clamped_as_specified 0 (Vox 0 5 0 13) (Vox 3 5 0 0) 1 0 = Vox 1 5 0 0) /\
  (adjust_left (Vox 0 0 0 13) (Vox (-1) (-5) 0 1) 1 1 = Vox (-1) 1 0 1 /\
   clamped_as_specified 1 (Vox 0 0 0 13) (Vox (-1) (-5) 0 1) 1 1 = Vox (-1) (-1) 0 1) /\
  (adjust_up (Vox 0 0 0 13) (Vox 0 0 1 5) 1 1 = Vox 0 0 0 5 /\
   clamped_as_specified 5 (Vox 0 0 0 13) (Vox 0 0 1 5) 1 1 = Vox 0 0 1 5).
Proof. split; [|split]; split; vm_compute; reflexivity. Qed.

(** C2 (the program departs from the claim).  The claim: every row of the
    sponsor region is the voxel's grid position plus the displacement vector.
    In the scenario the four surface neighbors are, but the row of the
    source, index 13, grid position (1, 1, 1), is at (3, 1, 1): the
    destination (2, 1, 1) was translated once more. *)
Theorem source_row_translated_twice :
  find_original_sponsors exact_side (2, 1, 1) (1, 1, 1) (lattice 0 3) 1 1 =
    Ok [Vox 3 1 1 14; Vox 1 1 1 12; Vox 2 2 1 16; Vox 2 0 1 10; Vox 3 1 1 13] /\
  lattice 0 3 !! 13%nat = Some (1, 1, 1) /\
  padd (1, 1, 1) (psub (2, 1, 1) (1, 1, 1)) = (2, 1, 1).
Proof. split; [|split]; vm_compute; reflexivity. Qed.

(** C3 (the program departs from the claim).  The claim: with an influence
    radius of 0 the source voxel alone is the sponsor region and [deform]
    returns a grid.  The program raises an [IndexError] for every request
    with radius 0. *)
Theorem radius_zero_raises (side : nat -> Z -> Z) (src vec : pos)
    (cube : list pos) (step stiff : Z) :
  find_original_sponsors side (padd src vec) src cube step 0 = Raise IndexError /\
  deform side src 0 vec cube step stiff = Some (Raise IndexError).
Proof.
  destruct (find_original_sponsors_not_one side cube step (padd src vec) src 0)
    as (e & He & Hidx); [lia|].
  rewrite (Hidx ltac:(lia)) in He. split; [done|].
  by apply deform_raise.
Qed.

(** C4 (the program departs from the claim).  The claim: a zero displacement
    vector gives back the input grid, no voxel being committed.  In the
    3 x 3 x 3 lattice with unit spacing, radius 1 and stiffness 1, the five
    voxels above the sponsors (indices 19, 21, 22, 23, 25) are committed and
    pulled down from z = 2 to z = 1. *)
Theorem zero_displacement_changes_grid :
  deform_run exact_side (1, 1, 1) 1 (0, 0, 0) (lattice 0 3) 1 1 = Some (Ok still_end) /\
  deform exact_side (1, 1, 1) 1 (0, 0, 0) (lattice 0 3) 1 1 =
    Some (Ok (new_matrix still_end)) /\
  committed still_end = [23; 21; 25; 19; 22] /\
  lattice 0 3 !! 22%nat = Some (1, 1, 2) /\
  new_matrix still_end !! 22%nat = Some (1, 1, 1).
Proof. split; [|split; [|split; [|split]]]; vm_compute; reflexivity. Qed.

(** C5.  Every index is examined as a neighbor at most once: what
    [find_neighbors] yields is in the grid at an index outside the history;
    examining a neighbor appends its index to the history; over the whole
    loop, for a spacing that is not zero, the history grows by a list of
    pairwise distinct indices, none of which was in the history before; and
    when [deform] ends, its history is the indices of the sponsor region
    followed by pairwise distinct indices outside the sponsor region. *)
Theorem visit_once (side : nat -> Z -> Z) (cube : list pos) (step stiff : Z) :
  (forall sponsor hist surface_only ns,
      find_neighbors side sponsor cube hist step surface_only = Ok ns ->
      Forall (fresh cube hist) ns) /\
  (forall us st n st1,
      examine cube step stiff us st n = Ok st1 ->
      exists i, find_index (xyz n) cube = Ok i /\
                sponsor_history st1 = sponsor_history st ++ [i]) /\
  (forall fuel st st',
      step <> 0 ->
      propagate side fuel cube step stiff st = Some (Ok st') ->
      exists ex, sponsor_history st' = sponsor_history st ++ ex /\
                 NoDup ex /\ Forall (fun i => i ∉ sponsor_history st) ex) /\
  (forall src area vec st,
      deform_run side src area vec cube step stiff = Some (Ok st) ->
      exists rows ex,
        find_original_sponsors side (padd src vec) src cube step area = Ok rows /\
        sponsor_history st = (v3 <$> rows) ++ ex /\
        NoDup ex /\ Forall (fun i => i ∉ v3 <$> rows) ex).
Proof.
  split_and!.
  - intros sponsor hist b ns H. by apply find_neighbors_spec in H as [_ ?].
  - intros us st n st1 (i & Hi & Hh & _)%examine_Ok. eauto.
  - intros fuel st st' Hs (ex & cm & (Hh & _) & _ & _ & N)%propagate_frame.
    destruct (N Hs). eauto.
  - intros src area vec st H. pose proof H as H'. unfold deform_run in H'.
    destruct (deform_init _ _ _ _ _ _) as [st0|e] eqn:Hinit; [|discriminate].
    apply deform_init_step in Hinit as Hs.
    apply deform_run_Ok in H as (rows & ex & Hf & Hh & _ & _ & N & _).
    destruct (N Hs). eauto 10.
Qed.

Lemma visit_once_witness :
  (exists ex, sponsor_history scenario_end = sponsor_history scenario_start ++ ex /\
              NoDup ex /\ Forall (fun i => i ∉ sponsor_history scenario_start) ex) /\
  (exists rows ex,
      find_original_sponsors exact_side (padd (1, 1, 1) (1, 0, 0)) (1, 1, 1)
        (lattice 0 3) 1 1 = Ok rows /\
      sponsor_history scenario_end = (v3 <$> rows) ++ ex /\
      NoDup ex /\ Forall (fun i => i ∉ v3 <$> rows) ex).
Proof.
  destruct (visit_once exact_side (lattice 0 3) 1 0) as (_ & _ & H & H').
  split.
  - apply (H 32%nat scenario_start scenario_end); [lia|].
    vm_compute. reflexivity.
  - apply (H' (1, 1, 1) 1 (1, 0, 0) scenario_end).
    vm_compute. reflexivity.
Defined.

(** C6.  The propagation loop terminates with the queue drained: for a
    spacing that is not zero, a grid closed under the neighbor steps, a queue
    of rows that carry grid indices and an output grid as long as the grid,
    as many rounds as the queue is long plus the grid has rows are enough.
    Without these conditions on the grid that many rounds still end the loop,
    normally or by an exception; the loop of [deform] never uses up the
    rounds it is given, and over a closed grid it ends with the queue
    drained whenever the sponsor region could be built. *)
Theorem propagate_drains (side : nat -> Z -> Z) (cube : list pos) (step stiff : Z) :
  (forall fuel st,
      step <> 0 ->
      closedb side cube step = true ->
      tags_in_range cube (original_sponsors st) ->
      length (new_matrix st) = length cube ->
      (length (original_sponsors st) + length cube <= fuel)%nat ->
      exists st', propagate side fuel cube step stiff st = Some (Ok st') /\
                  original_sponsors st' = []) /\
  (forall fuel st,
      step <> 0 ->
      (length (original_sponsors st) + length cube <= fuel)%nat ->
      is_Some (propagate side fuel cube step stiff st)) /\
  (forall src area vec, is_Some (deform_run side src area vec cube step stiff)) /\
  (forall src area vec st0,
      closedb side cube step = true ->
      deform_init side src area vec cube step = Ok st0 ->
      exists st, deform_run side src area vec cube step stiff = Some (Ok st) /\
                 original_sponsors st = []).
Proof.
  assert (forall fuel st, step <> 0 ->
            (length (original_sponsors st) + length cube <= fuel)%nat ->
            is_Some (propagate side fuel cube step stiff st)) as Hend.
  { intros fuel st Hs Hf. apply propagate_enough_fuel; [done|].
    pose proof (unvisited_le (length cube) (sponsor_history st)). lia. }
  assert (forall fuel st,
            step <> 0 -> closedb side cube step = true ->
            tags_in_range cube (original_sponsors st) ->
            length (new_matrix st) = length cube ->
            (length (original_sponsors st) + length cube <= fuel)%nat ->
            exists st', propagate side fuel cube step stiff st = Some (Ok st') /\
                        original_sponsors st' = []) as Hdrain.
  { intros fuel st Hs Hc Ht Hlen Hf.
    destruct (Hend fuel st Hs Hf) as [[st'|e] Hr].
    - exists st'. split; [done|].
      by apply propagate_frame in Hr as (ex & cm & _ & Hq & _).
    - by apply propagate_no_raise in Hr. }
  split_and!; [done|done|intros src area vec; apply deform_run_total|].
  intros src area vec st0 Hc Hinit. unfold deform_run. rewrite Hinit.
  pose proof (deform_init_step _ _ _ _ _ _ _ Hinit) as Hs.
  apply deform_init_Ok in Hinit as (rows & _ & Hq & _ & _ & Ht & Hlen & _).
  apply Hdrain; try done. by rewrite Hq.
Qed.

Lemma propagate_drains_witness :
  exists st', propagate exact_side 32 (lattice 0 3) 1 0 scenario_start = Some (Ok st') /\
              original_sponsors st' = [].
Proof.
  destruct (propagate_drains exact_side (lattice 0 3) 1 0) as (H & _ & _ & _).
  apply (H 32%nat scenario_start).
  - lia.
  - vm_compute. reflexivity.
  - unfold tags_in_range. apply (bool_decide_unpack _). vm_compute. exact I.
  - vm_compute. reflexivity.
  - vm_compute. lia.
Defined.

(** C7.  Each of the six functions returns the adjusted list exactly when a
    coordinate was changed, and "no change" otherwise; in the loop a "no
    change" leaves the queue and the output grid as they were, an adjusted
    list is queued and written under the neighbor's index; and when [deform]
    ends, every examined index that was not committed holds the position it
    has in the input grid. *)
Theorem no_change_sentinel :
  (sentinel_iff_unchanged deform_right adjust_right /\
   sentinel_iff_unchanged deform_left adjust_left /\
   sentinel_iff_unchanged deform_top adjust_top /\
   sentinel_iff_unchanged deform_lower adjust_lower /\
   sentinel_iff_unchanged deform_down adjust_down /\
   sentinel_iff_unchanged deform_up adjust_up) /\
  (forall cube step stiff us st n st',
      examine cube step stiff us st n = Ok st' ->
      exists i, find_index (xyz n) cube = Ok i /\
        match deform_neighbour us n step stiff with
        | None =>
            original_sponsors st' = original_sponsors st /\
            new_matrix st' = new_matrix st /\
            committed st' = committed st
        | Some c =>
            original_sponsors st' = original_sponsors st ++ [set3 c i] /\
            new_matrix st' = <[Z.to_nat i:=xyz c]> (new_matrix st) /\
            committed st' = committed st ++ [i]
        end) /\
  (forall side src area vec cube step stiff st,
      deform_run side src area vec cube step stiff = Some (Ok st) ->
      exists rows ex,
        find_original_sponsors side (padd src vec) src cube step area = Ok rows /\
        sponsor_history st = (v3 <$> rows) ++ ex /\
        forall i, i ∈ ex -> i ∉ committed st ->
                  new_matrix st !! Z.to_nat i = cube !! Z.to_nat i).
Proof.
  split_and!.
  - intros s c step k. apply unchanged_or_spec, adjust_right_v3.
  - intros s c step k. apply unchanged_or_spec, adjust_left_v3.
  - intros s c step k. apply unchanged_or_spec, adjust_top_v3.
  - intros s c step k. apply unchanged_or_spec, adjust_lower_v3.
  - intros s c step k. apply unchanged_or_spec, adjust_down_v3.
  - intros s c step k. apply unchanged_or_spec, adjust_up_v3.
  - intros cube step stiff us st n st' (i & Hi & _ & H)%examine_Ok. eauto.
  - intros side src area vec cube step stiff st H.
    apply deform_run_Ok in H as (rows & ex & Hf & Hh & _ & Hr & N & _ & Hk).
    exists rows, ex. split_and!; try done. intros i Hi Hnc.
    assert (step <> 0) as Hs.
    { intros Hs.
      pose proof (find_original_sponsors_step0 side cube step (padd src vec) src
                    area Hs) as Hraise.
      by rewrite Hf in Hraise. }
    destruct (N Hs) as [_ Hnew].
    pose proof (proj1 (Forall_forall _ _) Hr i Hi) as Hrange.
    pose proof (proj1 (Forall_forall _ _) Hnew i Hi) as Hnot.
    simpl in Hrange, Hnot.
    destruct (decide (new_matrix st !! Z.to_nat i = cube !! Z.to_nat i)) as [E|E];
      [done|].
    apply Hk in E. rewrite Z2Nat.id in E by lia. tauto.
Qed.

Lemma no_change_sentinel_witness :
  exists rows ex,
    find_original_sponsors exact_side (padd (1, 1, 1) (0, 0, 0)) (1, 1, 1)
      (lattice 0 3) 1 1 = Ok rows /\
    sponsor_history still_end = (v3 <$> rows) ++ ex /\
    forall i, i ∈ ex -> i ∉ committed still_end ->
              new_matrix still_end !! Z.to_nat i = lattice 0 3 !! Z.to_nat i.
Proof.
  destruct no_change_sentinel as (_ & _ & H).
  apply (H exact_side (1, 1, 1) 1 (0, 0, 0) (lattice 0 3) 1 1 still_end).
  vm_compute. reflexivity.
Defined.

(** C8, as the program has it.  A request whose source position is not in
    the grid, whose influence radius is negative or whose voxel spacing is
    zero fails while the sponsor region is built, before the propagation loop
    has a state to start from, and [deform] raises. *)
Theorem malformed_rejected (side : nat -> Z -> Z) (src vec : pos) (area : Z)
    (cube : list pos) (step stiff : Z) :
  src ∉ cube \/ area < 0 \/ step = 0 ->
  exists e, deform_init side src area vec cube step = Raise e /\
            deform side src area vec cube step stiff = Some (Raise e).
Proof.
  intros H.
  assert (exists e, find_original_sponsors side (padd src vec) src cube step area
                    = Raise e) as [e He].
  { destruct H as [Hsrc|[Harea|Hstep]].
    - exists IndexError. unfold find_original_sponsors.
      by rewrite (find_index_absent _ _ Hsrc).
    - destruct (find_original_sponsors_not_one side cube step (padd src vec) src area)
        as (e & He & _); [lia|eauto].
    - pose proof (find_original_sponsors_step0 side cube step (padd src vec) src
                    area Hstep) as Hr.
      destruct (find_original_sponsors _ _ _ _ _ _) as [rows|e]; [done|eauto]. }
  exists e. by apply deform_raise.
Qed.

Lemma malformed_rejected_witness :
  exists e, deform_init exact_side (1, 1, 1) (-1) (1, 0, 0) (lattice 0 3) 1 = Raise e /\
            deform exact_side (1, 1, 1) (-1) (1, 0, 0) (lattice 0 3) 1 0 = Some (Raise e).
Proof.
  apply (malformed_rejected exact_side (1, 1, 1) (1, 0, 0) (-1) (lattice 0 3) 1 0).
  right. left. lia.
Defined.

(** C8 as claimed fails: a request with the negative voxel spacing -1 on the
    lattice [-1, 2) ^ 3 is not rejected; the sponsor region is built, the
    propagation loop runs and [deform] returns a grid. *)
Lemma negative_spacing_accepted :
  -1 <= 0 /\
  (exists st, deform_init exact_side (-1, -1, -1) 1 (0, 0, 0) (lattice (-1) 3) (-1)
              = Ok st) /\
  deform exact_side (-1, -1, -1) 1 (0, 0, 0) (lattice (-1) 3) (-1) 0
  = Some (Ok (lattice (-1) 3)).
Proof.
  split; [lia|]. split; [eexists|]; vm_compute; reflexivity.
Qed.

(** C9.  The input grid is a parameter that no step of [deform] changes;
    the output grid has as many rows, and a row that differs from the input
    grid is at an index of the sponsor region or at an index the propagation
    loop committed. *)
Theorem changes_contained (side : nat -> Z -> Z) (src vec : pos) (area : Z)
    (cube : list pos) (step stiff : Z) (st : state) :
  deform_run side src area vec cube step stiff = Some (Ok st) ->
  deform side src area vec cube step stiff = Some (Ok (new_matrix st)) /\
  exists rows,
    find_original_sponsors side (padd src vec) src cube step area = Ok rows /\
    length (new_matrix st) = length cube /\
    forall k : nat, new_matrix st !! k <> cube !! k ->
                    Z.of_nat k ∈ v3 <$> rows \/ Z.of_nat k ∈ committed st.
Proof.
  intros H. split; [unfold deform; by rewrite H|].
  apply deform_run_Ok in H as (rows & ex & Hf & _ & _ & _ & _ & Hlen & Hk).
  eauto.
Qed.

Lemma changes_contained_witness :
  deform exact_side (1, 1, 1) 1 (1, 0, 0) (lattice 0 3) 1 0
  = Some (Ok (new_matrix scenario_end)) /\
  exists rows,
    find_original_sponsors exact_side (padd (1, 1, 1) (1, 0, 0)) (1, 1, 1)
      (lattice 0 3) 1 1 = Ok rows /\
    length (new_matrix scenario_end) = length (lattice 0 3) /\
    forall k : nat, new_matrix scenario_end !! k <> lattice 0 3 !! k ->
                    Z.of_nat k ∈ v3 <$> rows \/ Z.of_nat k ∈ committed scenario_end.
Proof.
  apply (changes_contained exact_side (1, 1, 1) (1, 0, 0) 1 (lattice 0 3) 1 0
           scenario_end).
  vm_compute. reflexivity.
Defined.

(** C10.  For every displacement area other than 1 [find_original_sponsors]
    raises, and so does [deform]: for an area below 1 the exception is the
    [IndexError] of two subscripts on a one-dimensional array (or of the
    lookup of the source); for an area of 2 or more, over a closed grid that
    holds the source, it is the [ValueError] of the append. *)
Theorem only_area_one (side : nat -> Z -> Z) (src vec : pos) (area : Z)
    (cube : list pos) (step stiff : Z) :
  area <> 1 ->
  exists e,
    find_original_sponsors side (padd src vec) src cube step area = Raise e /\
    deform side src area vec cube step stiff = Some (Raise e) /\
    (area <= 0 -> e = IndexError) /\
    (2 <= area -> closedb side cube step = true -> src ∈ cube -> e = ValueError).
Proof.
  intros Ha.
  destruct (find_original_sponsors_not_one side cube step (padd src vec) src area Ha)
    as (e & He & Hidx).
  exists e. split_and!; [done|by apply deform_raise|done|].
  intros H2 Hc Hsrc. revert He. unfold find_original_sponsors.
  destruct (find_index_elem _ _ Hsrc) as [i Hi]. rewrite Hi. simpl.
  destruct (Z.to_nat area) as [|[|n]] eqn:Hn; [lia|lia|].
  rewrite (layers_two_ValueError side cube step Hc).
  - simpl. congruence.
  - repeat constructor; apply find_index_range in Hi;
      destruct (padd src vec) as [[? ?] ?]; simpl; lia.
Qed.

Lemma only_area_one_witness :
  exists e,
    find_original_sponsors exact_side (padd (1, 1, 1) (1, 0, 0)) (1, 1, 1)
      (lattice 0 3) 1 2 = Raise e /\
    deform exact_side (1, 1, 1) 2 (1, 0, 0) (lattice 0 3) 1 0 = Some (Raise e) /\
    (2 <= 0 -> e = IndexError) /\
    (2 <= 2 -> closedb exact_side (lattice 0 3) 1 = true ->
     (1, 1, 1) ∈ lattice 0 3 -> e = ValueError).
Proof.
  apply (only_area_one exact_side (1, 1, 1) (1, 0, 0) 2 (lattice 0 3) 1 0). lia.
Defined.


(** * Further properties of the program *)

(** ** [find_index] *)

(** X1.  The index [find_index] returns is the first row equal to the voxel,
    and subscripting the grid with it gives the voxel back. *)
Theorem find_index_first_row (p : pos) (m : list pos) (i : Z) :
  find_index p m = Ok i ->
  getitem m i = Ok p /\
  0 <= i < Z.of_nat (length m) /\
  forall j : nat, Z.of_nat j < i -> m !! j <> Some p.
Proof.
  intros H. split; [by apply getitem_find_index|].
  split; [by eapply find_index_range|].
  apply find_index_Ok in H as (k & -> & _ & Hmin).
  intros j Hj Hm. apply (Hmin j p Hm); [lia|done].
Qed.

Lemma find_index_first_row_witness :
  getitem [(0, 0, 0); (1, 0, 0); (1, 0, 0)] 1 = Ok (1, 0, 0) /\
  0 <= 1 < Z.of_nat (length [(0, 0, 0); (1, 0, 0); (1, 0, 0)]) /\
  forall j : nat, Z.of_nat j < 1 ->
                  [(0, 0, 0); (1, 0, 0); (1, 0, 0)] !! j <> Some (1, 0, 0).
Proof.
  apply (find_index_first_row (1, 0, 0) [(0, 0, 0); (1, 0, 0); (1, 0, 0)] 1).
  reflexivity.
Defined.

Lemma find_index_Raise (p : pos) (m : list pos) (e : exn) :
  find_index p m = Raise e <-> e = IndexError /\ p ∉ m.
Proof.
  split.
  - intros H. split.
    + unfold find_index in H. destruct (list_find _ m) as [[k q]|]; congruence.
    + intros Hin. destruct (find_index_elem _ _ Hin) as [i Hi]. congruence.
  - intros [-> Hp]. by apply find_index_absent.
Qed.

(** X2.  [find_index] raises exactly when no row equals the voxel, and the
    exception is an [IndexError]. *)
Theorem find_index_raises_iff_absent (p : pos) (m : list pos) (e : exn) :
  find_index p m = Raise e <-> e = IndexError /\ p ∉ m.
Proof. apply find_index_Raise. Qed.

(** X3.  In a grid without repeated rows the lookup inverts the subscript:
    the index found for the row at [k] is [k]. *)
Theorem find_index_of_row (m : list pos) (k : nat) (p : pos) :
  NoDup m -> m !! k = Some p -> find_index p m = Ok (Z.of_nat k).
Proof.
  intros Hnd Hk. apply find_index_Ok. exists k. split_and!; [done..|].
  intros j q Hj Hlt ->.
  pose proof (NoDup_lookup _ _ _ _ Hnd Hj Hk). lia.
Qed.

Lemma find_index_of_row_witness :
  find_index (1, 1, 1) (lattice 0 3) = Ok (Z.of_nat 13).
Proof.
  apply (find_index_of_row (lattice 0 3) 13 (1, 1, 1)).
  - apply (bool_decide_unpack _). vm_compute. exact I.
  - reflexivity.
Defined.

(** ** [find_neighbors] as a filter *)

Section Scan.

Variable side : nat -> Z -> Z.
Variable cube : list pos.
Variable hist : list Z.

Lemma find_neighbors_scan (sponsor : pos) (step : Z) (surface_only : bool) :
  find_neighbors side sponsor cube hist step surface_only =
  scan (considered sponsor step surface_only) cube hist (side (length cube) step) [].
Proof.
  destruct sponsor as [[s0 s1] s2]. destruct surface_only; reflexivity.
Qed.

Lemma unvisitedb_find (c : vox) (i : Z) :
  find_index (xyz c) cube = Ok i -> unvisitedb cube hist c = negb (bool_decide (i ∈ hist)).
Proof. unfold unvisitedb. by intros ->. Qed.

Lemma scan_Ok (sl : Z) (cs acc ns : list vox) :
  scan cs cube hist sl acc = Ok ns <->
  Forall (fun c => in_boundsb sl c = true -> xyz c ∈ cube) cs /\
  ns = acc ++ List.filter (wanted sl cube hist) cs.
Proof.
  revert acc. induction cs as [|c cs IH]; intros acc; simpl.
  - rewrite app_nil_r. split; [intros [= <-]; split; [constructor|done]|].
    intros [_ ->]. done.
  - rewrite Forall_cons. unfold wanted at 1.
    destruct (in_boundsb sl c) eqn:Hb; simpl.
    + unfold keep_unvisited.
      destruct (find_index (xyz c) cube) as [i|e] eqn:Hi; simpl.
      * rewrite IH, (unvisitedb_find c i Hi).
        pose proof (find_index_is_elem _ _ _ Hi) as Hin.
        case_bool_decide; simpl.
        -- tauto.
        -- rewrite <- app_assoc. simpl. tauto.
      * split; [discriminate|]. intros [[Hin _] _].
        destruct (find_index_elem _ _ (Hin eq_refl)) as [i Hi']. congruence.
    + rewrite IH. split; [intros [? ?]; split; [split; [discriminate|done]|done]|].
      intros [[_ ?] ?]. done.
Qed.

Lemma scan_Raise (sl : Z) (cs acc : list vox) (e : exn) :
  scan cs cube hist sl acc = Raise e <->
  e = IndexError /\ Exists (fun c => in_boundsb sl c = true /\ xyz c ∉ cube) cs.
Proof.
  revert acc. induction cs as [|c cs IH]; intros acc; simpl.
  - split; [discriminate|]. intros [_ H]. by apply Exists_nil in H.
  - rewrite Exists_cons.
    destruct (in_boundsb sl c) eqn:Hb; simpl.
    + unfold keep_unvisited.
      destruct (find_index (xyz c) cube) as [i|e'] eqn:Hi; simpl.
      * rewrite IH. pose proof (find_index_is_elem _ _ _ Hi) as Hin.
        split; [intros [? ?]; auto|]. intros [? [[_ ?]|?]]; [done|auto].
      * apply find_index_Raise in Hi as [-> Hnot].
        split; [intros [= <-]; auto|]. intros [-> _]. done.
    + rewrite IH. split; [intros [? ?]; auto|].
      intros [? [[? _]|?]]; [discriminate|auto].
Qed.

End Scan.

(** X4.  When [find_neighbors] returns, every candidate that passed its bound
    test is a voxel of the grid, and the result is, in the order of the
    direction codes, exactly the candidates that passed the bound test and
    whose index is not in the history; and conversely. *)
Theorem find_neighbors_is_filter (side : nat -> Z -> Z) (sponsor : pos)
    (cube : list pos) (hist : list Z) (step : Z) (surface_only : bool)
    (ns : list vox) :
  let side_length := side (length cube) step in
  let cs := considered sponsor step surface_only in
  find_neighbors side sponsor cube hist step surface_only = Ok ns <->
  Forall (fun c => in_boundsb side_length c = true -> xyz c ∈ cube) cs /\
  ns = List.filter (wanted side_length cube hist) cs.
Proof.
  simpl. rewrite find_neighbors_scan, scan_Ok. done.
Qed.

(** X5.  [find_neighbors] raises exactly when a candidate that passes its
    bound test is not a voxel of the grid (the lookup comes before the test
    of the history), and the exception is an [IndexError]. *)
Theorem find_neighbors_raises_iff (side : nat -> Z -> Z) (sponsor : pos)
    (cube : list pos) (hist : list Z) (step : Z) (surface_only : bool) (e : exn) :
  let side_length := side (length cube) step in
  find_neighbors side sponsor cube hist step surface_only = Raise e <->
  e = IndexError /\
  Exists (fun c => in_boundsb side_length c = true /\ xyz c ∉ cube)
    (considered sponsor step surface_only).
Proof.
  simpl. rewrite find_neighbors_scan, scan_Raise. done.
Qed.

(** ** The constraint functions *)

Ltac no_if t :=
  lazymatch t with
  | context [if _ then _ else _] => fail
  | _ => idtac
  end.

Ltac conds_false :=
  repeat match goal with
         | |- context [?a <? ?b] =>
             no_if a; no_if b; rewrite (proj2 (Z.ltb_ge a b)) by lia; simpl
         | |- context [?a >? ?b] =>
             no_if a; no_if b;
             rewrite (Z.gtb_ltb a b), (proj2 (Z.ltb_ge b a)) by lia; simpl
         end.

Ltac conds_split :=
  repeat match goal with
         | |- context [?a <? ?b] =>
             no_if a; no_if b; destruct (Z.ltb_spec a b); simpl
         | |- context [?a >? ?b] =>
             no_if a; no_if b;
             rewrite (Z.gtb_ltb a b); destruct (Z.ltb_spec b a); simpl
         end.

Lemma unchanged_or_same (c : vox) : unchanged_or c c = None.
Proof. unfold unchanged_or. by rewrite bool_decide_eq_true_2. Qed.

Lemma within_no_change (sponsor neighbor : vox) (step k : Z) :
  within (v3 neighbor) sponsor neighbor step k ->
  (v3 neighbor = 5 -> v2 neighbor - v2 sponsor <= step - k) ->
  deform_neighbour sponsor neighbor step k = None.
Proof.
  destruct sponsor as [s0 s1 s2 s3], neighbor as [c0 c1 c2 code].
  unfold within, deform_neighbour. simpl. intros H Hup.
  destruct (code =? 0) eqn:E0.
  { unfold deform_right, adjust_right. simpl. conds_false. simpl.
    apply unchanged_or_same. }
  destruct (code =? 1) eqn:E1.
  { unfold deform_left, adjust_left. simpl. conds_false. simpl.
    apply unchanged_or_same. }
  destruct (code =? 2) eqn:E2.
  { unfold deform_top, adjust_top. simpl. conds_false. simpl.
    apply unchanged_or_same. }
  destruct (code =? 3) eqn:E3.
  { unfold deform_lower, adjust_lower. simpl. conds_false. simpl.
    apply unchanged_or_same. }
  destruct (code =? 4) eqn:E4.
  { unfold deform_down, adjust_down. simpl. conds_false. simpl.
    apply unchanged_or_same. }
  destruct (code =? 5) eqn:E5; [|done].
  apply Z.eqb_eq in E5. specialize (Hup E5).
  unfold deform_up, adjust_up. simpl. conds_false. simpl.
  apply unchanged_or_same.
Qed.

(** X6.  A neighbor whose offsets from the sponsor are already inside the
    ranges of its direction is answered "no change" by [deform_neighbour]:
    for the directions 0 to 4 always, for direction 5 (up) when its offset
    along z is not above [step - stiffness]. *)
Theorem in_range_no_change (sponsor neighbor : vox) (step k : Z) :
  within (v3 neighbor) sponsor neighbor step k ->
  (v3 neighbor = 5 -> v2 neighbor - v2 sponsor <= step - k) ->
  deform_neighbour sponsor neighbor step k = None.
Proof. apply within_no_change. Qed.

Lemma in_range_no_change_witness :
  deform_neighbour (Vox 2 1 1 13) (Vox 3 1 1 0) 1 0 = None.
Proof.
  apply (in_range_no_change (Vox 2 1 1 13) (Vox 3 1 1 0) 1 0).
  - unfold within. simpl. lia.
  - simpl. lia.
Defined.

(** X7.  [deform_down] enforces its whole constraint: for a stiffness that is
    not negative the adjusted position is inside all three ranges relative to
    the sponsor, and adjusting it again is "no change". *)
Theorem deform_down_enforces (sponsor candidate : vox) (step k : Z) :
  0 <= k ->
  within 4 sponsor (adjust_down sponsor candidate step k) step k /\
  deform_down sponsor (adjust_down sponsor candidate step k) step k = None.
Proof.
  intros Hk.
  assert (within 4 sponsor (adjust_down sponsor candidate step k) step k) as Hw.
  { destruct sponsor as [s0 s1 s2 s3], candidate as [c0 c1 c2 code].
    unfold within, adjust_down. simpl. conds_split; lia. }
  split; [done|].
  destruct sponsor as [s0 s1 s2 s3].
  destruct (adjust_down _ candidate step k) as [a0 a1 a2 a3].
  unfold within in Hw. simpl in Hw.
  unfold deform_down, adjust_down. simpl. conds_false. simpl.
  apply unchanged_or_same.
Qed.

Lemma deform_down_enforces_witness :
  within 4 (Vox 0 0 0 13) (adjust_down (Vox 0 0 0 13) (Vox 5 (-5) 7 4) 1 1) 1 1 /\
  deform_down (Vox 0 0 0 13) (adjust_down (Vox 0 0 0 13) (Vox 5 (-5) 7 4) 1 1) 1 1 = None.
Proof.
  apply (deform_down_enforces (Vox 0 0 0 13) (Vox 5 (-5) 7 4) 1 1). lia.
Defined.

(** X8.  The bounds the other five functions do enforce, for a stiffness that
    is not negative: [deform_top] and [deform_lower] put the offset along y
    into the primary range; the four functions of the x/y plane put the
    offset along z, and [deform_right], [deform_left], [deform_up] the offset
    along y, and [deform_up] the offset along x, into the shear range. *)
Theorem bounds_enforced (s c : vox) (step k : Z) :
  0 <= k ->
  (step - k <= v1 (adjust_top s c step k) - v1 s <= step + k) /\
  (step - k <= v1 s - v1 (adjust_lower s c step k) <= step + k) /\
  (- k <= v2 (adjust_right s c step k) - v2 s <= k) /\
  (- k <= v2 (adjust_left s c step k) - v2 s <= k) /\
  (- k <= v2 (adjust_top s c step k) - v2 s <= k) /\
  (- k <= v2 (adjust_lower s c step k) - v2 s <= k) /\
  (- k <= v1 (adjust_right s c step k) - v1 s <= k) /\
  (- k <= v1 (adjust_left s c step k) - v1 s <= k) /\
  (- k <= v1 (adjust_up s c step k) - v1 s <= k) /\
  (- k <= v0 (adjust_up s c step k) - v0 s <= k).
Proof.
  intros Hk. destruct s as [s0 s1 s2 s3], c as [c0 c1 c2 code].
  unfold adjust_top, adjust_lower, adjust_right, adjust_left, adjust_up.
  split_and!; simpl; conds_split; lia.
Qed.

Lemma bounds_enforced_witness :
  (1 - 1 <= v1 (adjust_top (Vox 0 0 0 13) (Vox 9 9 9 2) 1 1) - 0 <= 1 + 1) /\
  (- 1 <= v2 (adjust_right (Vox 0 0 0 13) (Vox 9 9 9 0) 1 1) - 0 <= 1).
Proof.
  destruct (bounds_enforced (Vox 0 0 0 13) (Vox 9 9 9 2) 1 1 ltac:(lia))
    as (H1 & _).
  destruct (bounds_enforced (Vox 0 0 0 13) (Vox 9 9 9 0) 1 1 ltac:(lia))
    as (_ & _ & H3 & _).
  split; [exact H1|exact H3].
Defined.

(** ** The sponsor region with one layer *)

Section RegionRows.

Variable side : nat -> Z -> Z.
Variable cube : list pos.
Variable step : Z.

Lemma retag_spec (storage storage' : list vox) (hist hist' : list Z) :
  retag storage cube hist = Ok (storage', hist') ->
  Forall2 (fun n r => find_index (xyz n) cube = Ok (v3 r) /\ xyz r = xyz n)
    storage storage'.
Proof.
  revert storage' hist hist'.
  induction storage as [|el rest IH]; intros storage' hist hist' H; simpl in H.
  - injection H as <- <-. constructor.
  - inv_bind H. inv_bind H. destruct a0 as [rest' h]. injection H as <- <-.
    constructor; [done|]. by eapply IH.
Qed.

(** What [find_original_sponsors] returns when it returns: the area is 1,
    and the rows are the retagged surface neighbors of the source followed by
    the row seeded with the destination, all moved by the vector. *)
Lemma find_original_sponsors_Ok (dst src : pos) (area : Z) (rows : list vox) :
  find_original_sponsors side dst src cube step area = Ok rows ->
  area = 1 /\
  exists i ns ns',
    find_index src cube = Ok i /\
    find_neighbors side src cube [i] step true = Ok ns /\
    ns <> [] /\
    Forall2 (fun n r => find_index (xyz n) cube = Ok (v3 r) /\ xyz r = xyz n) ns ns' /\
    rows = (fun r => with_tag (padd (xyz r) (psub dst src)) (v3 r))
             <$> (ns' ++ [with_tag dst i]).
Proof.
  unfold find_original_sponsors. intros H. inv_bind H. rename a into i.
  inv_bind H. destruct a as [r|rs]; [discriminate|]. injection H as <-.
  apply layers_Ok in Ha0 as [[_ Hos]|(Hn & storage & h & Hd & Hne & Hos)];
    [discriminate|].
  injection Hos as ->. split; [lia|].
  assert (v3 (with_tag dst i) = i) as Hv by (by destruct dst as [[? ?] ?]).
  simpl in Hd. rewrite Hv, (getitem_find_index _ _ _ Ha) in Hd. simpl in Hd.
  inv_bind Hd. rename a into ns. inv_bind Hd. destruct a as [ns' h'].
  simpl in Hd. injection Hd as <- <-.
  apply retag_spec in Ha1.
  exists i, ns, ns'. split_and!; try done.
  intros ->. apply Forall2_nil_inv_l in Ha1. done.
Qed.

Lemma region_tags_NoDup (dst src : pos) (area : Z) (rows : list vox) :
  find_original_sponsors side dst src cube step area = Ok rows ->
  NoDup (v3 <$> rows).
Proof.
  intros H.
  assert (step <> 0) as Hs.
  { intros Hs. pose proof (find_original_sponsors_step0 side cube step dst src
                             area Hs) as Hr. by rewrite H in Hr. }
  apply find_original_sponsors_Ok in H
    as (_ & i & ns & ns' & Hi & Hns & _ & Hall & ->).
  rewrite <- list_fmap_compose.
  assert ((v3 ∘ (fun r => with_tag (padd (xyz r) (psub dst src)) (v3 r)))
          <$> (ns' ++ [with_tag dst i]) = (v3 <$> ns') ++ [i]) as ->.
  { rewrite fmap_app. f_equal.
    - apply list_fmap_ext. intros _ r _. simpl.
      unfold with_tag, padd, xyz. by destruct (psub dst src) as [[? ?] ?].
    - simpl. unfold with_tag, padd, xyz.
      destruct dst as [[? ?] ?], (psub _ src) as [[? ?] ?]. done. }
  destruct (find_neighbors_indices side cube [i] src step true ns (v3 <$> ns') Hs Hns)
    as [Hnd Hfr].
  { apply Forall2_fmap_r. eapply Forall2_impl; [exact Hall|]. simpl. tauto. }
  apply NoDup_app. split_and!; [done| |apply NoDup_singleton].
  intros j Hj ->%list_elem_of_singleton.
  destruct (proj1 (Forall_forall _ _) Hfr i Hj) as [Hnot _].
  apply Hnot. by apply list_elem_of_singleton.
Qed.

End RegionRows.

(** X9.  The sponsor region [find_original_sponsors] returns has one row per
    unvisited surface neighbor of the source, in the order of the direction
    codes, each carrying the grid index of that neighbor and its grid
    position moved by the displacement vector, and a last row carrying the
    index of the source; the indices of the rows are pairwise distinct. *)
Theorem region_rows (side : nat -> Z -> Z) (dst src : pos) (cube : list pos)
    (step area : Z) (rows : list vox) :
  find_original_sponsors side dst src cube step area = Ok rows ->
  exists i ns,
    find_index src cube = Ok i /\
    find_neighbors side src cube [i] step true = Ok ns /\
    length rows = S (length ns) /\
    (forall k n, ns !! k = Some n ->
       exists r, rows !! k = Some r /\
                 find_index (xyz n) cube = Ok (v3 r) /\
                 xyz r = padd (xyz n) (psub dst src)) /\
    (exists r, rows !! length ns = Some r /\ v3 r = i) /\
    NoDup (v3 <$> rows).
Proof.
  intros H. pose proof (region_tags_NoDup _ _ _ _ _ _ _ H) as Hnd.
  apply find_original_sponsors_Ok in H
    as (_ & i & ns & ns' & Hi & Hns & _ & Hall & ->).
  pose proof (Forall2_length _ _ _ Hall) as Hlen.
  exists i, ns. split_and!; try done.
  - rewrite length_fmap, length_app. simpl. lia.
  - intros k n Hk.
    destruct (Forall2_lookup_l _ _ _ _ _ Hall Hk) as (r & Hr & Hidx & Hxyz).
    exists (with_tag (padd (xyz r) (psub dst src)) (v3 r)). split_and!.
    + rewrite list_lookup_fmap, lookup_app_l by (by eapply lookup_lt_Some).
      by rewrite Hr.
    + destruct (padd _ _) as [[? ?] ?]. done.
    + rewrite <- Hxyz. destruct (padd _ _) as [[? ?] ?]. done.
  - exists (with_tag (padd (xyz (with_tag dst i)) (psub dst src)) i). split.
    + rewrite list_lookup_fmap, Hlen, list_lookup_middle by done. simpl.
      f_equal. f_equal. by destruct dst as [[? ?] ?].
    + destruct (padd _ _) as [[? ?] ?]. done.
Qed.

Lemma region_rows_witness :
  exists i ns,
    find_index (1, 1, 1) (lattice 0 3) = Ok i /\
    find_neighbors exact_side (1, 1, 1) (lattice 0 3) [i] 1 true = Ok ns /\
    length (original_sponsors scenario_start) = S (length ns) /\
    (forall k n, ns !! k = Some n ->
       exists r, original_sponsors scenario_start !! k = Some r /\
                 find_index (xyz n) (lattice 0 3) = Ok (v3 r) /\
                 xyz r = padd (xyz n) (psub (2, 1, 1) (1, 1, 1))) /\
    (exists r, original_sponsors scenario_start !! length ns = Some r /\ v3 r = i) /\
    NoDup (v3 <$> original_sponsors scenario_start).
Proof.
  apply (region_rows exact_side (2, 1, 1) (1, 1, 1) (lattice 0 3) 1 1
           (original_sponsors scenario_start)).
  vm_compute. reflexivity.
Defined.

(** X10.  A source without an unvisited surface neighbor (a grid of one
    voxel, for instance) makes [find_original_sponsors] raise a [ValueError]
    for one layer: the empty layer cannot be appended. *)
Theorem isolated_source_raises (side : nat -> Z -> Z) (dst src : pos)
    (cube : list pos) (step : Z) (i : Z) :
  find_index src cube = Ok i ->
  find_neighbors side src cube [i] step true = Ok [] ->
  find_original_sponsors side dst src cube step 1 = Raise ValueError.
Proof.
  intros Hi Hns. unfold find_original_sponsors. rewrite Hi. simpl.
  assert (v3 (with_tag dst i) = i) as -> by (by destruct dst as [[? ?] ?]).
  rewrite (getitem_find_index _ _ _ Hi). simpl. rewrite Hns. simpl. done.
Qed.

Lemma isolated_source_raises_witness :
  find_original_sponsors exact_side (1, 0, 0) (0, 0, 0) [(0, 0, 0)] 1 1
  = Raise ValueError.
Proof.
  apply (isolated_source_raises exact_side (1, 0, 0) (0, 0, 0) [(0, 0, 0)] 1 0);
    vm_compute; reflexivity.
Defined.

(** ** [deform]: the history, the sponsors, the committed voxels *)

Lemma NoDup_range_length (n : nat) (l : list Z) :
  NoDup l -> Forall (fun i => 0 <= i < Z.of_nat n) l -> (length l <= n)%nat.
Proof.
  intros Hnd Hall.
  rewrite <- (Nat2Z.id n), <- (length_seqZ 0 (Z.of_nat n)).
  apply submseteq_length, NoDup_submseteq; [done|].
  intros i Hi. apply elem_of_seqZ.
  pose proof (proj1 (Forall_forall _ _) Hall i Hi). simpl in *. lia.
Qed.

Lemma getitem_nonneg (m : list pos) (i : Z) (p : pos) :
  0 <= i -> getitem m i = Ok p -> m !! Z.to_nat i = Some p.
Proof.
  unfold getitem, norm_index. intros Hi H.
  repeat case_bool_decide; try discriminate; try lia.
  destruct (m !! Z.to_nat i); congruence.
Qed.

Lemma write_sponsors_lookup (rows : list vox) (m m' : list pos) :
  NoDup (v3 <$> rows) ->
  write_sponsors rows m = Ok m' ->
  Forall (fun i => 0 <= i) (v3 <$> rows) ->
  forall r, r ∈ rows -> m' !! Z.to_nat (v3 r) = Some (xyz r).
Proof.
  revert m. induction rows as [|el rows IH]; intros m Hnd H Hall r Hr.
  - by apply elem_of_nil in Hr.
  - rewrite fmap_cons in Hnd, Hall. apply NoDup_cons in Hnd as [Hel Hnd].
    apply Forall_cons in Hall as [Hpos Hall].
    simpl in H. inv_bind H. apply setitem_Ok_nonneg in Ha as [-> Hrange]; [|done].
    apply elem_of_cons in Hr as [->|Hr]; [|by eapply IH].
    destruct (write_sponsors_frame rows _ _ Hall H) as [_ Hk].
    destruct (decide (m' !! Z.to_nat (v3 el)
                      = <[Z.to_nat (v3 el):=xyz el]> m !! Z.to_nat (v3 el))) as [E|E].
    + rewrite E. apply list_lookup_insert_eq. lia.
    + apply Hk in E. rewrite Z2Nat.id in E by lia. done.
Qed.

Lemma write_sponsors_same (rows : list vox) (m m' : list pos) :
  Forall (fun r => 0 <= v3 r /\ getitem m (v3 r) = Ok (xyz r)) rows ->
  write_sponsors rows m = Ok m' -> m' = m.
Proof.
  induction rows as [|el rows IH]; intros Hall H; simpl in H.
  - by injection H as <-.
  - apply Forall_cons in Hall as [[Hpos Hget] Hall].
    inv_bind H. apply setitem_Ok_nonneg in Ha as [-> _]; [|done].
    rewrite list_insert_id in H by (by apply getitem_nonneg). by apply IH.
Qed.

Section Outcome.

Variable side : nat -> Z -> Z.
Variable cube : list pos.
Variables step stiff : Z.

Lemma deform_init_rows (src vec : pos) (area : Z) (st : state) :
  deform_init side src area vec cube step = Ok st ->
  exists rows,
    find_original_sponsors side (padd src vec) src cube step area = Ok rows /\
    st = State rows (v3 <$> rows) (new_matrix st) [] /\
    write_sponsors rows cube = Ok (new_matrix st).
Proof.
  unfold deform_init. intros H. inv_bind H. inv_bind H. injection H as <-.
  exists a. done.
Qed.





End Outcome.

(** X11.  When [deform] ends, its history holds every index at most once,
    all of them indices of the grid, so it is no longer than the grid. *)
Theorem history_without_repeats (side : nat -> Z -> Z) (src vec : pos) (area : Z)
    (cube : list pos) (step stiff : Z) (st : state) :
  deform_run side src area vec cube step stiff = Some (Ok st) ->
  NoDup (sponsor_history st) /\
  Forall (fun i => 0 <= i < Z.of_nat (length cube)) (sponsor_history st) /\
  (length (sponsor_history st) <= length cube)%nat.
Proof.
  intros H.
  apply deform_run_Ok in H as (rows & ex & Hf & Hh & _ & Hr & N & _).
  assert (step <> 0) as Hs.
  { intros Hs. pose proof (find_original_sponsors_step0 side cube step
                             (padd src vec) src area Hs) as Hraise.
    by rewrite Hf in Hraise. }
  destruct (N Hs) as [Hnd Hnew].
  pose proof (region_tags_NoDup _ _ _ _ _ _ _ Hf) as Htags.
  pose proof (find_original_sponsors_tags _ _ _ _ _ _ _ Hf) as Hrange.
  assert (NoDup (sponsor_history st)) as Hall.
  { rewrite Hh. apply NoDup_app. split_and!; [done| |done].
    intros i Hi Hi'. by apply (proj1 (Forall_forall _ _) Hnew i Hi'). }
  assert (Forall (fun i => 0 <= i < Z.of_nat (length cube)) (sponsor_history st)).
  { rewrite Hh. by apply Forall_app. }
  split_and!; [done|done|by apply NoDup_range_length].
Qed.

Lemma history_without_repeats_witness :
  NoDup (sponsor_history scenario_end) /\
  Forall (fun i => 0 <= i < Z.of_nat (length (lattice 0 3)))
    (sponsor_history scenario_end) /\
  (length (sponsor_history scenario_end) <= length (lattice 0 3))%nat.
Proof.
  apply (history_without_repeats exact_side (1, 1, 1) (1, 0, 0) 1 (lattice 0 3) 1 0
           scenario_end).
  vm_compute. reflexivity.
Defined.

(** X12.  Propagation never moves a rigid sponsor: when [deform] ends, the
    output grid holds, at the index of every row of the sponsor region, the
    position of that row. *)
Theorem sponsors_keep_position (side : nat -> Z -> Z) (src vec : pos) (area : Z)
    (cube : list pos) (step stiff : Z) (st : state) :
  deform_run side src area vec cube step stiff = Some (Ok st) ->
  exists rows,
    find_original_sponsors side (padd src vec) src cube step area = Ok rows /\
    forall r, r ∈ rows -> new_matrix st !! Z.to_nat (v3 r) = Some (xyz r).
Proof.
  unfold deform_run.
  destruct (deform_init _ _ _ _ _ _) as [st0|e] eqn:Hinit; [|discriminate].
  pose proof (deform_init_step _ _ _ _ _ _ _ Hinit) as Hs.
  apply deform_init_rows in Hinit as (rows & Hf & Hst0 & Hw).
  intros (ex & cm & (_ & _ & Hsub & _ & Hk) & _ & _ & N)%propagate_frame.
  destruct (N Hs) as [_ Hnew]. rewrite Hst0 in Hnew. simpl in Hnew.
  exists rows. split; [done|]. intros r Hr.
  pose proof (find_original_sponsors_tags _ _ _ _ _ _ _ Hf) as Hrange.
  pose proof (proj1 (Forall_forall _ _) Hrange (v3 r)
                (list_elem_of_fmap_2 v3 _ _ Hr)) as Hrr. simpl in Hrr.
  destruct (decide (new_matrix st !! Z.to_nat (v3 r)
                    = new_matrix st0 !! Z.to_nat (v3 r))) as [E|E].
  - rewrite E. eapply write_sponsors_lookup; [|exact Hw| |done].
    + by eapply region_tags_NoDup.
    + eapply Forall_impl; [exact Hrange|]. simpl. lia.
  - apply Hk in E. rewrite Z2Nat.id in E by lia.
    pose proof (elem_of_sublist _ _ _ E Hsub) as Hex.
    destruct (proj1 (Forall_forall _ _) Hnew _ Hex).
    by apply list_elem_of_fmap_2.
Qed.

Lemma sponsors_keep_position_witness :
  exists rows,
    find_original_sponsors exact_side (padd (1, 1, 1) (1, 0, 0)) (1, 1, 1)
      (lattice 0 3) 1 1 = Ok rows /\
    forall r, r ∈ rows -> new_matrix scenario_end !! Z.to_nat (v3 r) = Some (xyz r).
Proof.
  apply (sponsors_keep_position exact_side (1, 1, 1) (1, 0, 0) 1 (lattice 0 3) 1 0
           scenario_end).
  vm_compute. reflexivity.
Defined.



(** ** A request that displaces nothing, on a rigid material *)

Lemma padd_zero (p : pos) : padd p (0, 0, 0) = p.
Proof. destruct p as [[a b] c]. unfold padd. by rewrite !Z.add_0_r. Qed.

Lemma psub_diag (p : pos) : psub p p = (0, 0, 0).
Proof. destruct p as [[a b] c]. unfold psub. by rewrite !Z.sub_diag. Qed.

Lemma with_tag_xyz (r : vox) : with_tag (xyz r) (v3 r) = r.
Proof. by destruct r. Qed.

Section AtRest.

Variable side : nat -> Z -> Z.
Variable cube : list pos.
Variable step : Z.

(** A candidate around the position of a sponsor is at rest with respect to
    it: with stiffness 0 no function moves it. *)
Lemma candidate_at_rest (us n : vox) :
  n ∈ candidates (xyz us) step -> deform_neighbour us n step 0 = None.
Proof.
  destruct us as [s0 s1 s2 s3]. unfold candidates, xyz. simpl.
  rewrite !elem_of_cons, elem_of_nil.
  intros [->|[->|[->|[->|[->|[->|[]]]]]]];
    apply within_no_change; unfold within; simpl; lia.
Qed.

Lemma examine_all_no_change (stiff : Z) (us : vox) (ns : list vox) (st st' : state) :
  Forall (fun n => deform_neighbour us n step stiff = None) ns ->
  examine_all cube step stiff us ns st = Ok st' ->
  original_sponsors st' = original_sponsors st /\ new_matrix st' = new_matrix st.
Proof.
  revert st. induction ns as [|n ns IH]; intros st Hall H; simpl in H.
  - by injection H as <-.
  - apply Forall_cons in Hall as [Hn Hall]. inv_bind H.
    apply examine_Ok in Ha as (i & _ & _ & Hnone). rewrite Hn in Hnone.
    destruct Hnone as (Hq & Hm & _).
    destruct (IH _ Hall H) as [-> ->]. done.
Qed.

Lemma round_at_rest (us : vox) (st st' : state) :
  getitem cube (v3 us) = Ok (xyz us) ->
  round side cube step 0 us st = Ok st' ->
  original_sponsors st' = original_sponsors st /\ new_matrix st' = new_matrix st.
Proof.
  intros Hus. unfold round. rewrite Hus. cbn [bind]. intros H. inv_bind H.
  apply find_neighbors_spec in Ha as [Hsub _].
  eapply examine_all_no_change; [|exact H].
  apply Forall_forall. intros n Hn. apply candidate_at_rest.
  by eapply elem_of_sublist.
Qed.

Lemma propagate_at_rest (fuel : nat) (st st' : state) :
  Forall (fun us => getitem cube (v3 us) = Ok (xyz us)) (original_sponsors st) ->
  propagate side fuel cube step 0 st = Some (Ok st') ->
  new_matrix st' = new_matrix st.
Proof.
  revert st. induction fuel as [|fuel IH]; intros st Hall H; simpl in H.
  - destruct (original_sponsors st); [|discriminate]. by injection H as <-.
  - destruct (original_sponsors st) as [|us rest] eqn:Q; [by injection H as <-|].
    apply Forall_cons in Hall as [Hus Hrest].
    destruct (round _ _ _ _ _ _) as [st1|e] eqn:R; [|discriminate].
    apply round_at_rest in R as [Hq Hm]; [|done]. simpl in Hq, Hm.
    rewrite <- Hm. apply IH; [|done]. by rewrite Hq.
Qed.

Lemma region_at_rest (src : pos) (area : Z) (rows : list vox) :
  find_original_sponsors side (padd src (0, 0, 0)) src cube step area = Ok rows ->
  Forall (fun r => 0 <= v3 r /\ getitem cube (v3 r) = Ok (xyz r)) rows.
Proof.
  rewrite padd_zero.
  intros (_ & i & ns & ns' & Hi & _ & _ & Hall & ->)%find_original_sponsors_Ok.
  rewrite psub_diag.
  assert ((fun r => with_tag (padd (xyz r) (0, 0, 0)) (v3 r)) <$> ns' ++ [with_tag src i]
          = ns' ++ [with_tag src i]) as ->.
  { rewrite <- (list_fmap_id (ns' ++ _)) at 2. apply list_fmap_ext.
    intros _ r _. by rewrite padd_zero, with_tag_xyz. }
  apply Forall_app. split.
  - apply Forall_forall. intros r Hr.
    apply list_elem_of_lookup in Hr as [k Hk].
    destruct (Forall2_lookup_r _ _ _ _ _ Hall Hk) as (n & _ & Hidx & Hxyz).
    rewrite Hxyz. split; [pose proof (find_index_range _ _ _ Hidx); lia|].
    by apply getitem_find_index.
  - repeat constructor.
    + apply find_index_range in Hi. destruct src as [[? ?] ?]. simpl. lia.
    + destruct src as [[a b] c]. simpl. by apply getitem_find_index in Hi.
Qed.

End AtRest.

(** X14.  With a zero displacement vector and stiffness 0, whenever [deform]
    returns a grid it is the input grid. *)
Theorem nothing_displaced_nothing_moves (side : nat -> Z -> Z) (src : pos)
    (area : Z) (cube : list pos) (step : Z) (m : list pos) :
  deform side src area (0, 0, 0) cube step 0 = Some (Ok m) -> m = cube.
Proof.
  unfold deform, deform_run.
  destruct (deform_init _ _ _ _ _ _) as [st0|e] eqn:Hinit; [|discriminate].
  apply deform_init_rows in Hinit as (rows & Hf & Hst0 & Hw).
  pose proof (region_at_rest _ _ _ _ _ _ Hf) as Hrest.
  apply write_sponsors_same in Hw; [|done].
  destruct (propagate _ _ _ _ _ _) as [[st|e]|] eqn:Hp; try discriminate.
  intros [= <-].
  apply propagate_at_rest in Hp.
  - congruence.
  - rewrite Hst0. simpl. eapply Forall_impl; [exact Hrest|]. simpl. tauto.
Qed.

Lemma nothing_displaced_nothing_moves_witness :
  lattice 0 3 = lattice 0 3.
Proof.
  apply (nothing_displaced_nothing_moves exact_side (1, 1, 1) 1 (lattice 0 3) 1
           (lattice 0 3)).
  vm_compute. reflexivity.
Defined.

(** ** Which exception, and when none *)

Lemma getitem_Raise (m : list pos) (i : Z) (e : exn) :
  getitem m i = Raise e -> e = IndexError.
Proof.
  unfold getitem. destruct (norm_index _ _) as [k|]; [|congruence].
  destruct (m !! k); congruence.
Qed.

Lemma setitem_Raise (m : list pos) (i : Z) (p : pos) (e : exn) :
  setitem m i p = Raise e -> e = IndexError.
Proof. unfold setitem. destruct (norm_index _ _); congruence. Qed.

Lemma bind_Raise_inv {A B : Type} (r : result A) (k : A -> result B) (e : exn) :
  bind r k = Raise e -> r = Raise e \/ exists a, r = Ok a /\ k a = Raise e.
Proof. destruct r as [a|e']; simpl; [eauto|]. intros [= ->]. by left. Qed.

Lemma write_sponsors_Raise (rows : list vox) (m : list pos) (e : exn) :
  write_sponsors rows m = Raise e -> e = IndexError.
Proof.
  revert m. induction rows as [|el rows IH]; intros m Hw; simpl in Hw;
    [discriminate|].
  apply bind_Raise_inv in Hw as [Hw|(m1 & _ & Hw)]; [|by eapply IH].
  by apply setitem_Raise in Hw.
Qed.

Section Exceptions.

Variable side : nat -> Z -> Z.
Variable cube : list pos.
Variables step stiff : Z.

Lemma examine_Raise (us : vox) (st : state) (n : vox) (e : exn) :
  examine cube step stiff us st n = Raise e -> e = IndexError.
Proof.
  unfold examine. intros [H|(i & _ & H)]%bind_Raise_inv.
  - by apply find_index_Raise in H as [-> _].
  - destruct (deform_neighbour us n step stiff); [|discriminate].
    apply bind_Raise_inv in H as [H|(m & _ & H)]; [|discriminate].
    by eapply setitem_Raise.
Qed.

Lemma examine_all_Raise (us : vox) (ns : list vox) (st : state) (e : exn) :
  examine_all cube step stiff us ns st = Raise e -> e = IndexError.
Proof.
  revert st. induction ns as [|n ns IH]; intros st H; simpl in H; [discriminate|].
  apply bind_Raise_inv in H as [H|(st1 & _ & H)]; [by eapply examine_Raise|].
  by eapply IH.
Qed.

Lemma round_Raise (us : vox) (st : state) (e : exn) :
  round side cube step stiff us st = Raise e -> e = IndexError.
Proof.
  unfold round. intros [H|(sponsor & _ & H)]%bind_Raise_inv.
  - by eapply getitem_Raise.
  - apply bind_Raise_inv in H as [H|(ns & _ & H)].
    + rewrite find_neighbors_scan in H. by apply scan_Raise in H as [-> _].
    + by eapply examine_all_Raise.
Qed.

Lemma propagate_Raise (fuel : nat) (st : state) (e : exn) :
  propagate side fuel cube step stiff st = Some (Raise e) -> e = IndexError.
Proof.
  revert st. induction fuel as [|fuel IH]; intros st H; simpl in H.
  - destruct (original_sponsors st); discriminate.
  - destruct (original_sponsors st) as [|us rest]; [discriminate|].
    destruct (round _ _ _ _ _ _) as [st1|e'] eqn:R; [by eapply IH|].
    injection H as ->. by eapply round_Raise.
Qed.



End Exceptions.

(** X15.  Once the sponsor region is built, [deform] can only fail by an
    [IndexError]: a [ValueError] of [deform] is a [ValueError] of the
    construction of the region. *)
Theorem value_error_only_from_region (side : nat -> Z -> Z) (src vec : pos)
    (area : Z) (cube : list pos) (step stiff : Z) :
  deform side src area vec cube step stiff = Some (Raise ValueError) ->
  find_original_sponsors side (padd src vec) src cube step area = Raise ValueError.
Proof.
  unfold deform, deform_run, deform_init.
  destruct (find_original_sponsors _ _ _ _ _ _) as [rows|e]; simpl.
  - destruct (write_sponsors rows cube) as [m|e] eqn:Hw; simpl.
    + destruct (propagate _ _ _ _ _ _) as [[st|e]|] eqn:Hp; try discriminate.
      intros [= ->]. by apply propagate_Raise in Hp.
    + intros [= ->]. by apply write_sponsors_Raise in Hw.
  - by intros [= ->].
Qed.

Lemma value_error_only_from_region_witness :
  find_original_sponsors exact_side (padd (1, 1, 1) (1, 0, 0)) (1, 1, 1)
    (lattice 0 3) 1 2 = Raise ValueError.
Proof.
  apply (value_error_only_from_region exact_side (1, 1, 1) (1, 0, 0) 2
           (lattice 0 3) 1 0).
  vm_compute. reflexivity.
Defined.


